(** * The EDIFACT structural matching engine of [edifact/messages/base.py]

    A shallow embedding of [Message.process_segments] and of the functions
    it dispatches to ([process_end], [process_group], [process_segment],
    [get_element], [add_group], [add_segment], [add_to_data], [Group.add]),
    followed by the properties of the engine.

    Conventions of the embedding:
    - Python [None] is [None] of an [option]; the attributes [label] and
      [description] are therefore options.
    - Indices and the running repeat counter are [nat]: they start at [0]
      and are only ever incremented.  The declared [repeats] of a grammar
      node is [int(repeats)] of an XML attribute, any integer, hence [Z].
    - Objects that are mutated in place and shared live in a [store]:
      the class attribute [Message.data], the [Group] objects (a heap
      addressed by allocation order) and the list object [last_containers].
    - Exceptions are values of [exn]; a computation is a function from the
      store to the store and either an exception or a result.
    - The calls of the logger leave no trace in the store.  Their
      arguments are built before the call; two of them join the labels
      of the open groups and raise when a label is [None] ([join_labels]),
      the others only format values with [%s] and cannot raise.
    - [process_segments] calls itself once per step; the embedding takes
      the number of nested calls it may make as [fuel] and answers [None]
      when that number does not suffice.  The recursion limit of the
      interpreter is not modelled: any finite [fuel] may be asked for. *)

From stdpp Require Import base numbers option list strings gmap.

Local Open Scope string_scope.
Local Open Scope list_scope.
Local Open Scope nat_scope.

Set Warnings "-register-all".

(** ** Grammar model: [PlaceholderSegment] and [SegmentGroup] *)

Inductive element : Type :=
| PlaceholderSegment (tag : string) (mandatory : bool) (repeats : Z)
    (label description : option string)
| SegmentGroup (elements : list element) (mandatory : bool) (repeats : Z)
    (label description : option string).

(** The exceptions the engine can raise: the one it raises itself and the
    ones Python raises on a bad subscript, on a missing attribute, and on
    an unexpected keyword argument or a [str.join] over something that is
    not a string. *)
Inductive exn : Type :=
| MissingSegmentAtPositionError (tag : string)
| IndexError
| AttributeError
| TypeError.

(** ** Result model *)

(** [DummySegment.__init__]: [label] falls back to [tag]. *)
Record DummySegment : Type := mkDummySegment {
  ds_data : list string;
  ds_tag : option string;
  ds_label : option string;
  ds_description : option string
}.

Definition DummySegment_init (data : list string) (tag label description : option string)
  : DummySegment :=
  mkDummySegment data tag (match label with Some l => Some l | None => tag end) description.

(** An entry of a result list: a segment object, or a reference to a
    [Group] object of the heap. *)
Inductive node : Type :=
| NSegment (s : DummySegment)
| NGroup (ref : nat).

(** [Group]: [g_elements] is [None] until the first [add] creates the
    attribute ([hasattr(self, 'elements')]). *)
Record Group : Type := mkGroup {
  g_mandatory : bool;
  g_repeats : Z;
  g_label : option string;
  g_description : option string;
  g_repeat : nat;
  g_uid : string;
  g_elements : option (gmap (option string) (list node))
}.

(** The shared mutable objects.  [data] is the class attribute
    [Message.data]; [last_containers] is the list object handed to
    [process_segments] (its default argument, one object for all calls);
    [draws] counts the identifiers drawn from the random generator. *)
Record store : Type := mkStore {
  data : gmap (option string) (list node);
  heap : list Group;
  last_containers : list nat;
  draws : nat
}.

(** The state of the interpreter when the module has just been loaded. *)
Definition initial_store : store := mkStore ∅ [] [] 0.

(** [d[label].append(x)] after [if label not in d: d[label] = []]. *)
Definition dict_append (d : gmap (option string) (list node)) (label : option string) (x : node)
  : gmap (option string) (list node) :=
  <[label := default [] (d !! label) ++ [x]]> d.

(** [Group.add] *)
Definition Group_add (label : option string) (x : node) (g : Group) : Group :=
  mkGroup (g_mandatory g) (g_repeats g) (g_label g) (g_description g) (g_repeat g) (g_uid g)
    (Some (dict_append (default ∅ (g_elements g)) label x)).

(** ** Computations over the store *)

Definition M (A : Type) : Type := store → store * (exn + A).

Definition ret {A} (a : A) : M A := λ s, (s, inr a).
Definition raise {A} (e : exn) : M A := λ s, (s, inl e).
Definition bind {A B} (m : M A) (k : A → M B) : M B :=
  λ s, match m s with
       | (s', inl e) => (s', inl e)
       | (s', inr a) => k a s'
       end.
Definition lift {A} (r : exn + A) : M A := λ s, (s, r).
Definition modify (f : store → store) : M unit := λ s, (f s, inr tt).

Notation "'let*' x ':=' m 'in' k" := (bind m (λ x, k))
  (at level 10, x pattern, m at level 100, k at level 200).

(** [l[:-1]] and [del l[-1]] *)
Definition drop_last {A} (l : list A) : list A := take (length l - 1) l.

(** [elements_indices[-1] += 1] (only reached on a non-empty list) *)
Definition incr_last (l : list nat) : list nat :=
  match last l with
  | Some i => drop_last l ++ [i + 1]
  | None => l
  end.

(** [c.label] for an open group [c].  Every reference of
    [last_containers] is an object of the heap; a reference outside it
    does not occur in the program and counts as a group without label. *)
Definition label_of (s : store) (ref : nat) : option string :=
  match heap s !! ref with
  | Some g => g_label g
  | None => None
  end.

(** Whether [', '.join([c.label for c in last_containers])] can be built:
    [str.join] takes strings only. *)
Definition labels_joinable (s : store) : bool :=
  forallb (λ ref, bool_decide (is_Some (label_of s ref))) (last_containers s).

(** The argument of [debug('expanded groups %s' % ', '.join(...))] and of
    [debug('contracted groups %s' % ', '.join(...))]: a [TypeError] when
    one of the open groups has the label [None]. *)
Definition join_labels : M unit :=
  λ s, if labels_joinable s then (s, inr tt) else (s, inl TypeError).

Section Engine.

(** The random generator behind [Group.uid]: its n-th draw. *)
Variable random_uid : nat → string.

(** The grammar attached to the message class, [self.elements]. *)
Variable self_elements : list element.

(** [SegmentGroup.get]; a [PlaceholderSegment] has no such method. *)
Definition get (e : element) (index : nat) : exn + element :=
  match e with
  | SegmentGroup elements _ _ _ _ =>
      match elements !! index with
      | Some c => inr c
      | None => inl IndexError
      end
  | PlaceholderSegment _ _ _ _ _ => inl AttributeError
  end.

(** The loop of [get_element]: an [IndexError] of [get] yields [None];
    [get] on [None] or on a segment is an [AttributeError]. *)
Fixpoint get_element_loop (result : option element) (rest : list nat)
  : exn + option element :=
  match rest with
  | [] => inr result
  | idx :: rest' =>
      match result with
      | None => inl AttributeError
      | Some e =>
          match get e idx with
          | inr c => get_element_loop (Some c) rest'
          | inl IndexError => get_element_loop None rest'
          | inl x => inl x
          end
      end
  end.

Definition get_element (elements_indices : list nat) : exn + option element :=
  match elements_indices with
  | [] => inl IndexError
  | i0 :: rest =>
      if bool_decide (length self_elements ≤ i0) then inr None
      else get_element_loop (self_elements !! i0) rest
  end.

(** [segments[segment_index][0]] *)
Definition tag_at (segments : list (list string)) (segment_index : nat) : exn + string :=
  match segments !! segment_index with
  | Some (tag :: _) => inr tag
  | _ => inl IndexError
  end.

(** [segments[segment_index]] *)
Definition segment_at (segments : list (list string)) (segment_index : nat)
  : exn + list string :=
  match segments !! segment_index with
  | Some seg => inr seg
  | None => inl IndexError
  end.

(** The attributes read off a grammar node, present on both classes. *)
Definition el_mandatory (e : element) : bool :=
  match e with
  | PlaceholderSegment _ m _ _ _ | SegmentGroup _ m _ _ _ => m
  end.
Definition el_repeats (e : element) : Z :=
  match e with
  | PlaceholderSegment _ _ r _ _ | SegmentGroup _ _ r _ _ => r
  end.
Definition el_label (e : element) : option string :=
  match e with
  | PlaceholderSegment _ _ _ l _ | SegmentGroup _ _ _ l _ => l
  end.
Definition el_description (e : element) : option string :=
  match e with
  | PlaceholderSegment _ _ _ _ d | SegmentGroup _ _ _ _ d => d
  end.

(** [e.tag]: only a [PlaceholderSegment] has it. *)
Definition el_tag (e : option element) : exn + string :=
  match e with
  | Some (PlaceholderSegment tag _ _ _ _) => inr tag
  | _ => inl AttributeError
  end.

(** [group_starts_with_segment] *)
Definition group_starts_with_segment (group : element) (tag : string) : exn + bool :=
  match get group 0 with
  | inl x => inl x
  | inr c =>
      match el_tag (Some c) with
      | inl x => inl x
      | inr t => inr (bool_decide (t = tag))
      end
  end.

(** [Message.add_to_data] *)
Definition add_to_data (label : option string) (x : node) : M unit :=
  modify (λ s, mkStore (dict_append (data s) label x) (heap s) (last_containers s) (draws s)).

(** [parent_groups[-1].add(label, x)] if there is an open group, else
    [add_to_data(label, x)]. *)
Definition add_to_parent (label : option string) (x : node) : M unit :=
  λ s, match last (last_containers s) with
       | Some parent =>
           (mkStore (data s) (alter (Group_add label x) parent (heap s))
              (last_containers s) (draws s), inr tt)
       | None => add_to_data label x s
       end.

(** [Group] built from the keywords [placeholder_group.__dict__()]: it copies the four
    attributes of the [SegmentGroup], has [repeat = 0], a fresh random
    [uid] and no [elements] yet.  The keywords of a [PlaceholderSegment]
    are not parameters of [Group.__init__]. *)
Definition Group_init (placeholder_group : element) : M nat :=
  match placeholder_group with
  | SegmentGroup _ mandatory repeats label description =>
      λ s, (mkStore (data s)
              (heap s ++ [mkGroup mandatory repeats label description 0
                            (random_uid (draws s)) None])
              (last_containers s) (S (draws s)),
            inr (length (heap s)))
  | PlaceholderSegment _ _ _ _ _ => raise TypeError
  end.

(** [Message.add_group]; the result is the new object.  The argument
    [repeats] is not used by the body. *)
Definition add_group (placeholder_group : element) (repeats : nat) : M nat :=
  let* group := Group_init placeholder_group in
  let* _ := add_to_parent (el_label placeholder_group) (NGroup group) in
  ret group.

(** [Message.add_segment]: a [DummySegment] built from [segment_data[1:]]
    and the keywords [element.__dict__()];
    the keywords of a [SegmentGroup] are not parameters of
    [DummySegment.__init__]. *)
Definition add_segment (element : element) (segment_data : list string) : M unit :=
  match element with
  | PlaceholderSegment tag _ _ label description =>
      let segment := DummySegment_init (drop 1 segment_data) (Some tag) label description in
      add_to_parent (ds_label segment) (NSegment segment)
  | SegmentGroup _ _ _ _ _ => raise TypeError
  end.

(** [Message.process_end].  After [del last_containers[-1]] the labels
    of the groups that stay open are joined for the logger. *)
Definition process_end (segment_index : nat) (elements_indices : list nat) (repeats : nat)
  : M (nat * list nat * nat) :=
  let elements_indices := drop_last elements_indices in
  let repeats := 0 in
  let* _ := (λ s,
    if bool_decide (0 < length (last_containers s))
    then (let* _ := modify (λ s,
            mkStore (data s) (heap s) (drop_last (last_containers s)) (draws s)) in
          join_labels) s
    else ret tt s) in
  ret (segment_index, elements_indices, repeats).

(** [Message.process_group].  On entry the labels of the open groups,
    the new one included, are joined for the logger between
    [last_containers.append] and [elements_indices.append(0)]. *)
Definition process_group (segments : list (list string)) (segment_index : nat)
    (elements_indices : list nat) (repeats : nat) : M (nat * list nat * nat) :=
  let* tag := lift (tag_at segments segment_index) in
  let* group := lift (get_element elements_indices) in
  match group with
  | None => raise AttributeError
  | Some group =>
      if bool_decide (el_repeats group ≤ Z.of_nat repeats + 1)%Z
      then process_end segment_index elements_indices repeats
      else
        let repeats := repeats + 1 in
        let* starts := lift (group_starts_with_segment group tag) in
        if negb starts then
          if el_mandatory group && bool_decide (repeats = 0) then
            let* first := lift (get group 0) in
            let* t := lift (el_tag (Some first)) in
            raise (MissingSegmentAtPositionError t)
          else
            ret (segment_index, incr_last elements_indices, 0)
        else
          let* ref := add_group group repeats in
          let* _ := modify (λ s,
            mkStore (data s) (heap s) (last_containers s ++ [ref]) (draws s)) in
          let* _ := join_labels in
          ret (segment_index, elements_indices ++ [0], repeats)
  end.

(** [Message.process_segment] *)
Definition process_segment (segments : list (list string)) (segment_index : nat)
    (elements_indices : list nat) (repeats : nat) : M (nat * list nat * nat) :=
  let* tag := lift (tag_at segments segment_index) in
  let* element := lift (get_element elements_indices) in
  let* etag := lift (el_tag element) in
  match element with
  | None => raise AttributeError
  | Some element =>
      if negb (bool_decide (etag = tag)) then
        if el_mandatory element && bool_decide (repeats = 0) then
          raise (MissingSegmentAtPositionError etag)
        else
          ret (segment_index, incr_last elements_indices, 0)
      else
        let* segment_data := lift (segment_at segments segment_index) in
        let* _ := add_segment element segment_data in
        let segment_index := segment_index + 1 in
        if bool_decide (el_repeats element ≤ Z.of_nat repeats + 1)%Z
        then ret (segment_index, incr_last elements_indices, 0)
        else ret (segment_index, elements_indices, repeats + 1)
  end.

Definition segments_to_ignore : list string := ["UNA"; "UNH"; "BGM"; "UNT"].

(** [Message.process_segments].  The function returns nothing; its effect
    is on the store.  [None] means that [fuel] nested calls did not
    suffice. *)
Fixpoint process_segments (fuel : nat) (segments : list (list string)) (segment_index : nat)
    (elements_indices : list nat) (repeats : nat) (s : store)
  : option (store * (exn + unit)) :=
  match fuel with
  | 0 => None
  | S fuel =>
      if bool_decide (length segments ≤ segment_index)
         || bool_decide (length elements_indices < 1)
      then Some (s, inr tt)
      else
        match tag_at segments segment_index with
        | inl x => Some (s, inl x)
        | inr tag =>
            if bool_decide (tag ∈ segments_to_ignore) then
              process_segments fuel segments (segment_index + 1) elements_indices repeats s
            else
              match get_element elements_indices with
              | inl x => Some (s, inl x)
              | inr segment_or_group =>
                  let step :=
                    match segment_or_group with
                    | None => process_end segment_index elements_indices repeats
                    | Some (SegmentGroup _ _ _ _ _) =>
                        process_group segments segment_index elements_indices repeats
                    | Some (PlaceholderSegment _ _ _ _ _) =>
                        process_segment segments segment_index elements_indices repeats
                    end in
                  match step s with
                  | (s', inl x) => Some (s', inl x)
                  | (s', inr (segment_index, elements_indices, repeats)) =>
                      process_segments fuel segments segment_index elements_indices repeats s'
                  end
              end
        end
  end.

(** [Message.initialize_from_src_string], from the point where the source
    string has been split into segments and components (the helpers
    [separate_segments], [separate_components] and
    [validate_anchor_segments] belong to another module). *)
Definition initialize_from_src_string (fuel : nat) (segments : list (list string))
  : store → option (store * (exn + unit)) :=
  process_segments fuel segments 0 [0] 0.

End Engine.

(** [Message.__init__] with a source string: the constructor only runs
    [initialize_from_src_string].  The store it starts from is whatever
    earlier constructions left behind: neither [Message.data] (a class
    attribute) nor the default [last_containers] is created per instance. *)
Definition Message_init (random_uid : nat → string) (self_elements : list element)
    (fuel : nat) (segments : list (list string)) : store → option (store * (exn + unit)) :=
  initialize_from_src_string random_uid self_elements fuel segments.

(** ** Grammars and inputs of the scenarios *)

Definition seg_A : element := PlaceholderSegment "A" true 1 None None.
Definition seg_B : element := PlaceholderSegment "B" true 1 None None.

(** A mandatory ["A"], then an optional group ["G1"] of at most two
    repeats holding a mandatory ["B"]. *)
Definition grammar_A_G1 : list element :=
  [seg_A; SegmentGroup [seg_B] false 2 (Some "G1") None].

(** The group ["G1"] alone, optional or mandatory. *)
Definition grammar_G1 (mandatory : bool) : list element :=
  [SegmentGroup [seg_B] mandatory 2 (Some "G1") None].


(** The [DummySegment] made of an input segment with tag [tag] and
    payload [payload] by a grammar node without label or description. *)
Definition plain_segment (tag : string) (payload : list string) : node :=
  NSegment (mkDummySegment payload (Some tag) (Some tag) None).

(** An entered ["G1"] holding one ["B"]. *)
Definition group_G1_with_B (mandatory : bool) (uid : string) (payload : list string) : Group :=
  mkGroup mandatory 2 (Some "G1") None 0 uid
    (Some {[ Some "B" := [plain_segment "B" payload] ]}).

(** ** Vocabulary of the properties *)

(** The store after [process_end]: the last open group is closed. *)
Definition close_container (s : store) : store :=
  if bool_decide (0 < length (last_containers s))
  then mkStore (data s) (heap s) (drop_last (last_containers s)) (draws s)
  else s.

(** The store after a group has been entered: the new [Group] is
    allocated, added to its parent and pushed on [last_containers]. *)
Definition open_container (random_uid : nat → string) (group : element) (s : store) : store :=
  match add_group random_uid group 0 s with
  | (s', inr ref) => mkStore (data s') (heap s') (last_containers s' ++ [ref]) (draws s')
  | (s', inl _) => s'
  end.

(** The store after a segment has been added to the current container. *)
Definition with_segment (element : element) (segment_data : list string) (s : store) : store :=
  (add_segment element segment_data s).1.

(** The entries under [label] in the container the engine writes to: the
    last open group, or [Message.data] when no group is open. *)
Definition current_entries (label : option string) (s : store) : list node :=
  match last (last_containers s) with
  | Some parent =>
      default [] (g ← heap s !! parent; elements ← g_elements g; elements !! label)
  | None => default [] (data s !! label)
  end.

(** Every open group is an allocated object. *)
Definition containers_allocated (s : store) : Prop :=
  ∀ ref, ref ∈ last_containers s → ref < length (heap s).

(** One call of [process_segments] up to its recursive call: it returns,
    raises, or goes on from a new position. *)
Inductive step_result : Type :=
| Halt (r : exn + unit)
| Continue (segment_index : nat) (elements_indices : list nat) (repeats : nat).

Definition engine_step (random_uid : nat → string) (self_elements : list element)
    (segments : list (list string)) (segment_index : nat) (elements_indices : list nat)
    (repeats : nat) (s : store) : store * step_result :=
  if bool_decide (length segments ≤ segment_index)
     || bool_decide (length elements_indices < 1)
  then (s, Halt (inr tt))
  else
    match tag_at segments segment_index with
    | inl x => (s, Halt (inl x))
    | inr tag =>
        if bool_decide (tag ∈ segments_to_ignore) then
          (s, Continue (segment_index + 1) elements_indices repeats)
        else
          match get_element self_elements elements_indices with
          | inl x => (s, Halt (inl x))
          | inr segment_or_group =>
              match
                match segment_or_group with
                | None => process_end segment_index elements_indices repeats
                | Some (SegmentGroup _ _ _ _ _) =>
                    process_group random_uid self_elements segments segment_index
                      elements_indices repeats
                | Some (PlaceholderSegment _ _ _ _ _) =>
                    process_segment self_elements segments segment_index
                      elements_indices repeats
                end s
              with
              | (s', inl x) => (s', Halt (inl x))
              | (s', inr (segment_index, elements_indices, repeats)) =>
                  (s', Continue segment_index elements_indices repeats)
              end
          end
    end.

(** The largest number of children of a node at or below [e], and of the
    grammar as a whole: a bound on every index of a path that resolves. *)
Fixpoint element_width (e : element) : nat :=
  match e with
  | PlaceholderSegment _ _ _ _ _ => 0
  | SegmentGroup elements _ _ _ _ =>
      length elements `max`
      (fix widths (l : list element) : nat :=
         match l with
         | [] => 0
         | c :: l' => element_width c `max` widths l'
         end) elements
  end.

Definition grammar_width (self_elements : list element) : nat :=
  element_width (SegmentGroup self_elements true 1 None None).

(** What is left to visit at the levels of a path without entering a group. *)
Definition path_weight (width : nat) (elements_indices : list nat) : nat :=
  sum_list_with (λ i, S (width - i)) elements_indices.

(** The measure that decreases along a run of the engine. *)
Definition engine_measure (self_elements : list element) (segments : list (list string))
    (segment_index : nat) (elements_indices : list nat) : nat :=
  (length segments - segment_index) * (grammar_width self_elements + 2)
  + path_weight (grammar_width self_elements) elements_indices.

(** *** The wording of the specification, where the code departs from it *)


(** A call of [process_group] enters the group when it descends to the
    first child, that is, returns the path extended by [0]. *)
Definition enters_group (random_uid : nat → string) (self_elements : list element)
    (segments : list (list string)) (segment_index : nat) (elements_indices : list nat)
    (repeats : nat) (s : store) : Prop :=
  ∃ s' repeats',
    process_group random_uid self_elements segments segment_index elements_indices repeats s
    = (s', inr (segment_index, elements_indices ++ [0], repeats')).


(** Entry of a group hands 0 as repeat count to the deeper level. *)
Definition spec_entry_resets_repeats : Prop :=
  ∀ random_uid self_elements segments segment_index elements_indices repeats s
    s' segment_index' repeats',
    process_group random_uid self_elements segments segment_index elements_indices repeats s
    = (s', inr (segment_index', elements_indices ++ [0], repeats')) →
    repeats' = 0.

(** Every step consumes one segment, or moves to the next sibling or one
    level up at the same segment. *)
Definition spec_step_consumes_or_advances : Prop :=
  ∀ random_uid self_elements segments segment_index elements_indices repeats s
    s' segment_index' elements_indices' repeats',
    engine_step random_uid self_elements segments segment_index elements_indices repeats s
    = (s', Continue segment_index' elements_indices' repeats') →
    segment_index' = segment_index + 1
    ∨ segment_index' = segment_index
      ∧ (elements_indices' = incr_last elements_indices
         ∨ elements_indices' = drop_last elements_indices).

(** The engine returns or raises on every grammar and input. *)
Definition engine_terminates : Prop :=
  ∀ random_uid self_elements segments segment_index elements_indices repeats s,
    ∃ fuel r, ∀ k,
      process_segments random_uid self_elements (fuel + k) segments segment_index
        elements_indices repeats s = Some r.

(** The key under which [add_segment] files a segment: the label of the
    grammar node, or its tag when it has no label. *)
Definition segment_key (tag : string) (label : option string) : option string :=
  ds_label (DummySegment_init [] (Some tag) label None).

(** The lookups of the engine raise nothing but these. *)
Definition python_error (x : exn) : Prop := x = IndexError ∨ x = AttributeError.

(** ** Concrete inputs *)

(** A generator that always draws the same identifier. *)
Definition constant_uid : nat → string := λ _, "aaaaa".


(** A mandatory group of the default single repeat, then ["A"]. *)
Definition grammar_single_G1_A : list element :=
  [SegmentGroup [seg_B] true 1 (Some "G1") None; seg_A].

(** The store after the first of two parses of a single ["B"] with
    [grammar_G1 false], and what the second parse makes of group 0. *)
Definition store_after_B (uid : string) (payload : list string) : store :=
  mkStore {[ Some "G1" := [NGroup 0] ]} [group_G1_with_B false uid payload] [0] 1.

Definition group_G1_reopened (uid : string) (payload : list string) : Group :=
  mkGroup false 2 (Some "G1") None 0 uid
    (Some {[ Some "B" := [plain_segment "B" payload]; Some "G1" := [NGroup 1] ]}).

(** A single mandatory ["X"]. *)
Definition grammar_X : list element := [PlaceholderSegment "X" true 1 None None].

(** ** Further vocabulary: accessors, grammar predicates and invariants *)

(** [Message.__getitem__]: [self.data[key]], a [KeyError] on a key that
    was never filled. *)
Inductive key_error : Type := KeyError (key : option string).

Definition Message_getitem (s : store) (key : option string) : key_error + list node :=
  match data s !! key with
  | Some entries => inr entries
  | None => inl (KeyError key)
  end.

(** A segment as the tokenizer delivers it carries at least its tag. *)
Definition tokenized (segments : list (list string)) : bool :=
  forallb (λ seg, match seg with [] => false | _ :: _ => true end) segments.

(** The segments [process_segments] skips, and the input without them. *)
Definition is_envelope (seg : list string) : bool :=
  match seg with
  | tag :: _ => bool_decide (tag ∈ segments_to_ignore)
  | [] => false
  end.

Definition strip_envelope (segments : list (list string)) : list (list string) :=
  filter (λ seg, is_envelope seg = false) segments.

(** The tags of the mandatory segment nodes at or below [e], and of a
    grammar. *)
Fixpoint mandatory_tags (e : element) : list string :=
  match e with
  | PlaceholderSegment tag mandatory _ _ _ => if mandatory then [tag] else []
  | SegmentGroup elements _ _ _ _ =>
      (fix below (l : list element) : list string :=
         match l with
         | [] => []
         | c :: l' => mandatory_tags c ++ below l'
         end) elements
  end.

Definition grammar_mandatory_tags (self_elements : list element) : list string :=
  mandatory_tags (SegmentGroup self_elements true 1 None None).

(** A grammar in which every group starts with a segment, as
    [group_starts_with_segment] expects. *)
Fixpoint well_formed (e : element) : bool :=
  match e with
  | PlaceholderSegment _ _ _ _ _ => true
  | SegmentGroup elements _ _ _ _ =>
      match elements with
      | PlaceholderSegment _ _ _ _ _ :: _ => true
      | _ => false
      end
      && (fix all (l : list element) : bool :=
            match l with
            | [] => true
            | c :: l' => well_formed c && all l'
            end) elements
  end.

Definition well_formed_grammar (self_elements : list element) : bool :=
  forallb well_formed self_elements.

(** A path as the engine builds it: every index but the last one selects
    a group. *)
Definition valid_cursor (self_elements : list element) (elements_indices : list nat) : Prop :=
  elements_indices = []
  ∨ ∃ q i, elements_indices = q ++ [i]
           ∧ (q = [] ∨ ∃ elements mandatory repeats label description,
                         get_element self_elements q
                         = inr (Some (SegmentGroup elements mandatory repeats label
                                        description))).

(** One open group per level below the top level. *)
Definition cursor_matches_containers (elements_indices : list nat) (s : store) : Prop :=
  elements_indices = [] ∨ length elements_indices = length (last_containers s) + 1.

(** The key under which a grammar node is filed. *)
Definition element_key (e : element) : option string :=
  match e with
  | PlaceholderSegment tag _ _ label _ => segment_key tag label
  | SegmentGroup _ _ _ label _ => label
  end.

Definition top_keys (self_elements : list element) : gset (option string) :=
  list_to_set (element_key <$> self_elements).

(** Every list of [d] is still there in [d'], possibly longer. *)
Definition dict_extends (d d' : gmap (option string) (list node)) : Prop :=
  ∀ k entries, d !! k = Some entries → ∃ more, d' !! k = Some (entries ++ more).

(** The same [Group] object later on: same attributes, lists only longer. *)
Definition group_extends (g g' : Group) : Prop :=
  g_mandatory g' = g_mandatory g ∧ g_repeats g' = g_repeats g ∧ g_label g' = g_label g
  ∧ g_description g' = g_description g ∧ g_repeat g' = g_repeat g ∧ g_uid g' = g_uid g
  ∧ dict_extends (default ∅ (g_elements g)) (default ∅ (g_elements g')).

Definition store_extends (s s' : store) : Prop :=
  dict_extends (data s) (data s')
  ∧ ∀ ref g, heap s !! ref = Some g → ∃ g', heap s' !! ref = Some g' ∧ group_extends g g'.

(** No key is bound to an empty list. *)
Definition dict_nonempty (d : gmap (option string) (list node)) : Prop :=
  ∀ k entries, d !! k = Some entries → entries ≠ [].

Definition store_nonempty (s : store) : Prop :=
  dict_nonempty (data s)
  ∧ ∀ ref g elements,
      heap s !! ref = Some g → g_elements g = Some elements → dict_nonempty elements.

(** A grammar without mandatory node, and one with a segment of three
    repeats at the head of a group. *)
Definition grammar_optional : list element :=
  [PlaceholderSegment "A" false 1 None None;
   SegmentGroup [PlaceholderSegment "B" false 1 None None] false 2 (Some "G1") None].

Definition grammar_G1_B3 : list element :=
  [SegmentGroup [PlaceholderSegment "B" true 3 None None; seg_A] false 2 (Some "G1") None].

(** A grammar in which every group, at any depth, has a label: the
    listing of the open groups in [process_group] and [process_end] joins
    the labels and needs strings. *)
Fixpoint labelled (e : element) : bool :=
  match e with
  | PlaceholderSegment _ _ _ _ _ => true
  | SegmentGroup elements _ _ label _ =>
      bool_decide (is_Some label)
      && (fix all (l : list element) : bool :=
            match l with
            | [] => true
            | c :: l' => labelled c && all l'
            end) elements
  end.

Definition labelled_grammar (self_elements : list element) : bool :=
  forallb labelled self_elements.

(** An optional group without label. *)
Definition grammar_nolabel : list element :=
  [SegmentGroup [PlaceholderSegment "B" false 1 None None] false 2 None None].

(** [n] successive steps of the engine from a position: the position and
    store reached, or the halt met on the way. *)
Fixpoint engine_steps (random_uid : nat → string) (self_elements : list element)
    (segments : list (list string)) (n : nat) (segment_index : nat)
    (elements_indices : list nat) (repeats : nat) (s : store) : store * step_result :=
  match n with
  | 0 => (s, Continue segment_index elements_indices repeats)
  | S n =>
      match engine_step random_uid self_elements segments segment_index elements_indices
              repeats s with
      | (s', Continue segment_index' elements_indices' repeats') =>
          engine_steps random_uid self_elements segments n segment_index' elements_indices'
            repeats' s'
      | (s', Halt r) => (s', Halt r)
      end
  end.

(** ** The structure loader: [generate_structure], [process_element] and
    the module-level [process_group]

    The XML file itself is read by [get_xml_spec] with
    [xml.etree.ElementTree]; the embedding starts from the parsed tree.
    The built-in [int] is a parameter of the section: it answers [None]
    where Python raises [ValueError]. *)

Module Structure.

(** An [Element]: its tag, its attributes and its child elements. *)
Inductive xml : Type :=
| Element (tag : string) (attrib : gmap string string) (children : list xml).

Definition xml_children (x : xml) : list xml :=
  match x with Element _ _ children => children end.

(** What the two constructors can raise: [TypeError] for a keyword that
    is no parameter (or is given twice), [ValueError] of [int]. *)
Inductive init_error : Type :=
| KeywordError
| LiteralError.

(** The parameters that [**element.attrib] may bind, in both
    constructors: [status='M'], [repeats='1'], [label=None],
    [description=None]. *)
Definition keywords : gset string :=
  {[ "status"; "repeats"; "label"; "description" ]}.

Section Load.

Variable int : string → option Z.

(** [PlaceholderSegment(tag, **attrib)] *)
Definition PlaceholderSegment_init (tag : string) (attrib : gmap string string)
  : init_error + element :=
  if bool_decide (dom attrib ⊆ keywords) then
    match int (default "1" (attrib !! "repeats")) with
    | Some repeats =>
        inr (PlaceholderSegment tag (bool_decide (default "M" (attrib !! "status") = "M"))
               repeats (attrib !! "label") (attrib !! "description"))
    | None => inl LiteralError
    end
  else inl KeywordError.

(** [SegmentGroup(elements, **attrib)] *)
Definition SegmentGroup_init (elements : list element) (attrib : gmap string string)
  : init_error + element :=
  if bool_decide (dom attrib ⊆ keywords) then
    match int (default "1" (attrib !! "repeats")) with
    | Some repeats =>
        inr (SegmentGroup elements (bool_decide (default "M" (attrib !! "status") = "M"))
               repeats (attrib !! "label") (attrib !! "description"))
    | None => inl LiteralError
    end
  else inl KeywordError.

(** [process_element], with the loop of [process_group] over the
    children written in place: the children are converted first, in
    order, and the first failure is the one that is raised. *)
Fixpoint process_element (x : xml) : init_error + element :=
  match x with
  | Element tag attrib children =>
      if bool_decide (tag = "GROUP") then
        match
          (fix each (l : list xml) : init_error + list element :=
             match l with
             | [] => inr []
             | child :: l' =>
                 match process_element child with
                 | inl e => inl e
                 | inr c =>
                     match each l' with
                     | inl e => inl e
                     | inr cs => inr (c :: cs)
                     end
                 end
             end) children
        with
        | inl e => inl e
        | inr elements => SegmentGroup_init elements attrib
        end
      else PlaceholderSegment_init tag attrib
  end.

(** The loop [for child in ...: elements.append(process_element(child))]. *)
Fixpoint process_elements (l : list xml) : init_error + list element :=
  match l with
  | [] => inr []
  | child :: l' =>
      match process_element child with
      | inl e => inl e
      | inr c =>
          match process_elements l' with
          | inl e => inl e
          | inr cs => inr (c :: cs)
          end
      end
  end.

(** The module-level [process_group]. *)
Definition process_group (x : xml) : init_error + element :=
  match x with
  | Element _ attrib children =>
      match process_elements children with
      | inl e => inl e
      | inr elements => SegmentGroup_init elements attrib
      end
  end.

(** [generate_structure]: the grammar is made of the children of the
    root element; the root's own tag and attributes are not looked at. *)
Definition generate_structure (root : xml) : init_error + list element :=
  process_elements (xml_children root).

End Load.

(** The tree structure of a specification as the loader sees it: a
    [GROUP] element with its children, any other element as a leaf with
    its tag. *)
Inductive skeleton : Type :=
| Leaf (tag : string)
| Node (children : list skeleton).

Fixpoint xml_skeleton (x : xml) : skeleton :=
  match x with
  | Element tag _ children =>
      if bool_decide (tag = "GROUP") then Node (map xml_skeleton children) else Leaf tag
  end.

Fixpoint element_skeleton (e : element) : skeleton :=
  match e with
  | PlaceholderSegment tag _ _ _ _ => Leaf tag
  | SegmentGroup elements _ _ _ _ => Node (map element_skeleton elements)
  end.

(** The elements the loader accepts: only the four attributes, a
    [repeats] that [int] can read and, for a [GROUP], acceptable
    children.  The children of other elements are not looked at. *)
Fixpoint acceptable (int : string → option Z) (x : xml) : bool :=
  match x with
  | Element tag attrib children =>
      bool_decide (dom attrib ⊆ keywords)
      && bool_decide (is_Some (int (default "1" (attrib !! "repeats"))))
      && (if bool_decide (tag = "GROUP") then forallb (acceptable int) children else true)
  end.

(** [int] on plain decimal literals, for the examples. *)
Definition digit_value (c : Ascii.ascii) : option Z :=
  let n := Ascii.nat_of_ascii c in
  if (48 <=? n) && (n <=? 57) then Some (Z.of_nat (n - 48)) else None.

Fixpoint decimal_digits (acc : Z) (s : string) : option Z :=
  match s with
  | EmptyString => Some acc
  | String c s' =>
      match digit_value c with
      | Some d => decimal_digits (10 * acc + d)%Z s'
      | None => None
      end
  end.

Definition decimal_literal (s : string) : option Z :=
  match s with
  | EmptyString => None
  | _ => decimal_digits 0 s
  end.

(** The specification of the grammar of C1, with a stray child below
    the segment [A]. *)
Definition xml_A_G1 : xml :=
  Element "MESSAGE" {[ "name" := "demo" ]}
    [Element "A" ∅ [Element "ignored" {[ "x" := "y" ]} []];
     Element "GROUP" {[ "status" := "C"; "repeats" := "2"; "label" := "G1" ]}
       [Element "B" ∅ []]].

End Structure.

(** ** Lists *)

Lemma drop_last_snoc {A} (l : list A) (x : A) : drop_last (l ++ [x]) = l.
Proof.
  unfold drop_last. rewrite length_app. simpl.
  replace (length l + 1 - 1) with (length l) by lia.
  by rewrite take_app_length.
Qed.

Lemma incr_last_snoc (l : list nat) (i : nat) : incr_last (l ++ [i]) = l ++ [i + 1].
Proof. unfold incr_last. by rewrite last_snoc, drop_last_snoc. Qed.

Lemma snoc_cases {A} (l : list A) : l = [] ∨ ∃ q x, l = q ++ [x].
Proof.
  induction l as [|a l IH] using rev_ind; [by left | right; eauto].
Qed.

Lemma length_drop_last {A} (l : list A) : length (drop_last l) = length l - 1.
Proof. unfold drop_last. rewrite length_take. lia. Qed.

Lemma length_incr_last (l : list nat) : length (incr_last l) = length l.
Proof.
  destruct (snoc_cases l) as [-> | (q & x & ->)]; [done|].
  rewrite incr_last_snoc, !length_app. done.
Qed.

Section Properties.

Variable uid : nat → string.
Variable G : list element.

(** ** Resolution of a path *)

Lemma get_element_nonempty (path : list nat) (r : option element) :
  get_element G path = inr r → path ≠ [].
Proof. by destruct path. Qed.

Lemma get_element_loop_snoc (result : option element) (rest : list nat) (i : nat) :
  get_element_loop result (rest ++ [i]) =
  match get_element_loop result rest with
  | inl x => inl x
  | inr None => inl AttributeError
  | inr (Some e) =>
      match get e i with
      | inr c => inr (Some c)
      | inl IndexError => inr None
      | inl x => inl x
      end
  end.
Proof.
  revert result. induction rest as [|j rest IH]; intros result; simpl.
  - destruct result as [e|]; [|done]. by destruct (get e i) as [[]|].
  - destruct result as [e|]; [|done].
    destruct (get e j) as [[]|]; try done; apply IH.
Qed.

(** Below a group, the path extended by [i] resolves to the group's
    i-th child, or to [None] past the last child. *)
Lemma get_element_child (path : list nat) (i : nat) cs m r l d :
  get_element G path = inr (Some (SegmentGroup cs m r l d)) →
  get_element G (path ++ [i]) = inr (cs !! i).
Proof.
  destruct path as [|i0 rest]; [done|]. simpl.
  case_bool_decide; [done|]. rewrite get_element_loop_snoc.
  intros ->. simpl. by destruct (cs !! i).
Qed.


Lemma tag_at_error (segments : list (list string)) idx x :
  tag_at segments idx = inl x → python_error x.
Proof.
  unfold tag_at, python_error.
  destruct (segments !! idx) as [[|]|]; naive_solver.
Qed.

Lemma get_error e i x : get e i = inl x → python_error x.
Proof.
  unfold python_error. destruct e as [|cs m r l d]; simpl; [naive_solver|].
  destruct (cs !! i); naive_solver.
Qed.

Lemma get_element_loop_error result rest x :
  get_element_loop result rest = inl x → python_error x.
Proof.
  revert result. induction rest as [|i rest IH]; intros [e|]; simpl; try done.
  - destruct (get e i) as [y|c] eqn:Hget; [|by apply IH].
    apply get_error in Hget as [-> | ->]; [by apply IH|].
    intros [= <-]. by right.
  - intros [= <-]. by right.
Qed.

Lemma get_element_error path x : get_element G path = inl x → python_error x.
Proof.
  destruct path as [|i0 rest]; simpl.
  - intros [= <-]. by left.
  - case_bool_decide; [done|]. apply get_element_loop_error.
Qed.

Lemma group_starts_with_segment_error group tag x :
  group_starts_with_segment group tag = inl x → python_error x.
Proof.
  unfold group_starts_with_segment.
  destruct (get group 0) as [y|c] eqn:Hget.
  - intros [= <-]. by eapply get_error.
  - destruct c; simpl; [done|]. intros [= <-]. by right.
Qed.

(** ** One call of each function *)

Lemma tag_at_lookup (segments : list (list string)) idx tag payload :
  segments !! idx = Some (tag :: payload) → tag_at segments idx = inr tag.
Proof. unfold tag_at. by intros ->. Qed.

Lemma segment_at_lookup (segments : list (list string)) idx seg :
  segments !! idx = Some seg → segment_at segments idx = inr seg.
Proof. unfold segment_at. by intros ->. Qed.

(** [process_segments] is [engine_step] followed by the recursive call. *)
Lemma process_segments_unfold fuel (segments : list (list string)) idx path rep st :
  process_segments uid G (S fuel) segments idx path rep st =
  match engine_step uid G segments idx path rep st with
  | (s', Halt r) => Some (s', r)
  | (s', Continue idx' path' rep') => process_segments uid G fuel segments idx' path' rep' s'
  end.
Proof.
  simpl. unfold engine_step.
  destruct (bool_decide (length segments ≤ idx) || bool_decide (length path < 1)); [done|].
  destruct (tag_at segments idx) as [x|tag]; [done|].
  destruct (bool_decide (tag ∈ segments_to_ignore)); [done|].
  destruct (get_element G path) as [x|e]; [done|].
  by destruct (_ st) as [s' [x|[[idx' path'] rep']]].
Qed.

(** The step taken by [process_segments] on a segment that is not skipped
    and a path that resolves. *)
Lemma process_segments_step fuel (segments : list (list string)) idx path rep st tag payload e :
  segments !! idx = Some (tag :: payload) →
  tag ∉ segments_to_ignore →
  get_element G path = inr e →
  process_segments uid G (S fuel) segments idx path rep st =
  match
    match e with
    | None => process_end idx path rep
    | Some (SegmentGroup _ _ _ _ _) => process_group uid G segments idx path rep
    | Some (PlaceholderSegment _ _ _ _ _) => process_segment G segments idx path rep
    end st
  with
  | (s', inl x) => Some (s', inl x)
  | (s', inr (idx', path', rep')) => process_segments uid G fuel segments idx' path' rep' s'
  end.
Proof.
  intros Hseg Hign Hget. simpl.
  pose proof (lookup_lt_Some _ _ _ Hseg) as Hlt.
  pose proof (get_element_nonempty _ _ Hget) as Hne.
  rewrite bool_decide_eq_false_2 by lia.
  rewrite bool_decide_eq_false_2 by (destruct path; [done | simpl; lia]).
  simpl. rewrite (tag_at_lookup _ _ _ _ Hseg).
  rewrite bool_decide_eq_false_2 by done.
  by rewrite Hget.
Qed.

(** The step on a segment whose tag is in [segments_to_ignore]. *)
Lemma process_segments_ignore fuel (segments : list (list string)) idx path rep st tag payload :
  segments !! idx = Some (tag :: payload) →
  tag ∈ segments_to_ignore →
  path ≠ [] →
  process_segments uid G (S fuel) segments idx path rep st =
  process_segments uid G fuel segments (idx + 1) path rep st.
Proof.
  intros Hseg Hign Hne. simpl.
  pose proof (lookup_lt_Some _ _ _ Hseg) as Hlt.
  rewrite bool_decide_eq_false_2 by lia.
  rewrite bool_decide_eq_false_2 by (destruct path; [done | simpl; lia]).
  simpl. rewrite (tag_at_lookup _ _ _ _ Hseg).
  by rewrite bool_decide_eq_true_2.
Qed.

(** The two ways [process_segments] returns. *)
Lemma process_segments_halt fuel (segments : list (list string)) idx path rep st :
  length segments ≤ idx ∨ path = [] →
  process_segments uid G (S fuel) segments idx path rep st = Some (st, inr tt).
Proof.
  intros [H | ->]; simpl.
  - by rewrite bool_decide_eq_true_2.
  - destruct (bool_decide (length segments ≤ idx)); [done|].
    by destruct (decide (length (@nil nat) < 1)) as [|[]]; [|simpl; lia].
Qed.

Lemma labels_joinable_no_container st :
  last_containers st = [] → labels_joinable st = true.
Proof. unfold labels_joinable. by intros ->. Qed.

Lemma process_end_eq idx path rep st :
  process_end idx path rep st
  = (close_container st,
     if labels_joinable (close_container st)
     then inr (idx, drop_last path, 0)
     else inl TypeError).
Proof.
  unfold process_end, close_container, bind, modify, join_labels, ret.
  case_bool_decide as Hlc; simpl.
  - by destruct (labels_joinable _).
  - rewrite labels_joinable_no_container; [done|].
    destruct (last_containers st); [done|simpl in Hlc; lia].
Qed.

(** ** The labels of the open groups *)

Lemma label_of_add_to_parent label x st ref :
  label_of (add_to_parent label x st).1 ref = label_of st ref.
Proof.
  unfold add_to_parent, add_to_data, modify, label_of.
  destruct (last (last_containers st)) as [parent|]; simpl; [|done].
  rewrite list_lookup_alter. destruct (decide (parent = ref)) as [->|]; [|done].
  by destruct (heap st !! ref).
Qed.

Lemma labels_joinable_add_to_parent label x st :
  labels_joinable (add_to_parent label x st).1 = labels_joinable st.
Proof.
  unfold labels_joinable.
  replace (last_containers (add_to_parent label x st).1) with (last_containers st)
    by (unfold add_to_parent; by destruct (last (last_containers st))).
  induction (last_containers st) as [|ref refs IH]; [done|]. simpl.
  by rewrite label_of_add_to_parent, IH.
Qed.

Lemma labels_joinable_with_segment e seg st :
  labels_joinable (with_segment e seg st) = labels_joinable st.
Proof.
  destruct e as [etag m r l d|cs m r l d]; [|done].
  unfold with_segment, add_segment. apply labels_joinable_add_to_parent.
Qed.

Lemma labels_joinable_app h refs refs' d n d' n' :
  labels_joinable (mkStore d h (refs ++ refs') n)
  = labels_joinable (mkStore d' h refs n') && labels_joinable (mkStore d' h refs' n').
Proof. unfold labels_joinable. simpl. by rewrite forallb_app. Qed.

Lemma labels_joinable_close st :
  labels_joinable st = true → labels_joinable (close_container st) = true.
Proof.
  unfold close_container. case_bool_decide; [|done]. intros Hjoin.
  destruct st as [d h refs n]. simpl in *.
  rewrite <- (take_drop (length refs - 1) refs) in Hjoin.
  rewrite (labels_joinable_app h _ _ d n d n) in Hjoin.
  by apply andb_true_iff in Hjoin as [Hjoin _].
Qed.

Lemma open_container_unfold cs m r l d st :
  open_container uid (SegmentGroup cs m r l d) st
  = let st1 := mkStore (data st)
                 (heap st ++ [mkGroup m r l d 0 (uid (draws st)) None])
                 (last_containers st) (S (draws st)) in
    let st2 := (add_to_parent l (NGroup (length (heap st))) st1).1 in
    mkStore (data st2) (heap st2) (last_containers st2 ++ [length (heap st)]) (draws st2).
Proof.
  unfold open_container, add_group, bind, Group_init, ret, add_to_parent, add_to_data, modify.
  simpl. by destruct (last (last_containers st)).
Qed.

(** The listing after an entry succeeds when it did before and the new
    group has a label, and only when the new group has one. *)
Lemma labels_joinable_open cs m r l d st :
  labels_joinable st = true →
  labels_joinable (open_container uid (SegmentGroup cs m r l d) st)
  = bool_decide (is_Some l).
Proof.
  intros Hjoin. rewrite open_container_unfold. cbv zeta.
  set (st1 := mkStore (data st) (heap st ++ [mkGroup m r l d 0 (uid (draws st)) None])
                (last_containers st) (S (draws st))).
  set (st2 := (add_to_parent l (NGroup (length (heap st))) st1).1).
  assert (last_containers st2 = last_containers st) as Hlc.
  { unfold st2, add_to_parent. by destruct (last (last_containers st1)). }
  assert (∀ ref refs,
            label_of (mkStore (data st2) (heap st2) refs (draws st2)) ref = label_of st1 ref)
    as Hlab.
  { intros ref refs. rewrite <- (label_of_add_to_parent l (NGroup (length (heap st))) st1). done. }
  unfold labels_joinable. simpl. rewrite Hlc, forallb_app. simpl.
  rewrite Hlab. rewrite andb_true_r.
  assert (label_of st1 (length (heap st)) = l) as ->.
  { unfold label_of, st1. simpl. by rewrite lookup_app_r, Nat.sub_diag by lia. }
  match goal with |- ?b && _ = _ => replace b with true; [done|] end.
  symmetry. apply forallb_forall. intros ref Hin.
  unfold labels_joinable in Hjoin.
  pose proof (proj1 (forallb_forall _ _) Hjoin ref Hin) as Href.
  rewrite Hlab. apply bool_decide_eq_true in Href. apply bool_decide_eq_true.
  unfold label_of in *. unfold st1. simpl.
  destruct (heap st !! ref) as [g|] eqn:Hg; [|by destruct Href].
  by rewrite (lookup_app_l_Some _ _ _ _ Hg).
Qed.

Lemma labels_joinable_open_label cs m r l d st :
  labels_joinable (open_container uid (SegmentGroup cs m r l d) st) = true → is_Some l.
Proof.
  rewrite open_container_unfold. cbv zeta.
  set (st1 := mkStore (data st) (heap st ++ [mkGroup m r l d 0 (uid (draws st)) None])
                (last_containers st) (S (draws st))).
  unfold labels_joinable. simpl. rewrite forallb_app. simpl. intros Hjoin.
  apply andb_true_iff in Hjoin as [_ Hjoin]. rewrite andb_true_r in Hjoin.
  apply bool_decide_eq_true in Hjoin.
  change (label_of _ (length (heap st)))
    with (label_of (add_to_parent l (NGroup (length (heap st))) st1).1 (length (heap st)))
    in Hjoin.
  rewrite label_of_add_to_parent in Hjoin.
  unfold label_of, st1 in Hjoin. simpl in Hjoin.
  by rewrite lookup_app_r, Nat.sub_diag in Hjoin by lia.
Qed.

Lemma process_segment_mismatch (segments : list (list string)) idx path rep st tag payload
    etag m r l d :
  get_element G path = inr (Some (PlaceholderSegment etag m r l d)) →
  segments !! idx = Some (tag :: payload) →
  tag ≠ etag →
  process_segment G segments idx path rep st =
  if m && bool_decide (rep = 0)
  then (st, inl (MissingSegmentAtPositionError etag))
  else (st, inr (idx, incr_last path, 0)).
Proof.
  intros Hget Hseg Hne. unfold process_segment, bind, lift.
  rewrite (tag_at_lookup _ _ _ _ Hseg), Hget. simpl.
  rewrite bool_decide_eq_false_2 by congruence. simpl.
  by destruct (m && bool_decide (rep = 0)).
Qed.

Lemma process_segment_match (segments : list (list string)) idx path rep st payload
    etag m r l d :
  get_element G path = inr (Some (PlaceholderSegment etag m r l d)) →
  segments !! idx = Some (etag :: payload) →
  process_segment G segments idx path rep st =
  (with_segment (PlaceholderSegment etag m r l d) (etag :: payload) st,
   inr (if bool_decide (r ≤ Z.of_nat rep + 1)%Z
        then (idx + 1, incr_last path, 0)
        else (idx + 1, path, rep + 1))).
Proof.
  intros Hget Hseg. unfold process_segment, bind, lift.
  rewrite (tag_at_lookup _ _ _ _ Hseg), Hget. simpl.
  rewrite bool_decide_eq_true_2 by done. simpl.
  rewrite (segment_at_lookup _ _ _ Hseg).
  unfold with_segment, add_segment, add_to_parent, add_to_data, modify.
  destruct (last (last_containers st)); simpl; by case_bool_decide.
Qed.

Lemma process_group_exhausted (segments : list (list string)) idx path rep st tag payload
    cs m r l d :
  get_element G path = inr (Some (SegmentGroup cs m r l d)) →
  segments !! idx = Some (tag :: payload) →
  (r ≤ Z.of_nat rep + 1)%Z →
  process_group uid G segments idx path rep st = process_end idx path rep st.
Proof.
  intros Hget Hseg Hr. unfold process_group, bind, lift.
  rewrite (tag_at_lookup _ _ _ _ Hseg), Hget. simpl.
  by rewrite bool_decide_eq_true_2.
Qed.

Lemma process_group_first_segment (segments : list (list string)) idx path rep st tag payload
    ctag cm cr cl cd cs m r l d :
  get_element G path =
    inr (Some (SegmentGroup (PlaceholderSegment ctag cm cr cl cd :: cs) m r l d)) →
  segments !! idx = Some (tag :: payload) →
  (Z.of_nat rep + 1 < r)%Z →
  process_group uid G segments idx path rep st =
  if bool_decide (ctag = tag)
  then (open_container uid (SegmentGroup (PlaceholderSegment ctag cm cr cl cd :: cs) m r l d) st,
        if labels_joinable
             (open_container uid
                (SegmentGroup (PlaceholderSegment ctag cm cr cl cd :: cs) m r l d) st)
        then inr (idx, path ++ [0], rep + 1)
        else inl TypeError)
  else (st, inr (idx, incr_last path, 0)).
Proof.
  intros Hget Hseg Hr. unfold process_group, bind, lift.
  rewrite (tag_at_lookup _ _ _ _ Hseg), Hget. simpl.
  rewrite bool_decide_eq_false_2 by lia. simpl.
  case_bool_decide; simpl.
  - unfold open_container, add_group, bind, add_to_parent, add_to_data, modify, ret,
      join_labels. simpl.
    destruct (last (last_containers st)); simpl; by destruct (labels_joinable _).
  - rewrite (bool_decide_eq_false_2 (rep + 1 = 0)) by lia.
    by rewrite andb_false_r.
Qed.

Lemma process_group_first_group (segments : list (list string)) idx path rep st tag payload
    ccs cm cr cl cd cs m r l d :
  get_element G path =
    inr (Some (SegmentGroup (SegmentGroup ccs cm cr cl cd :: cs) m r l d)) →
  segments !! idx = Some (tag :: payload) →
  (Z.of_nat rep + 1 < r)%Z →
  process_group uid G segments idx path rep st = (st, inl AttributeError).
Proof.
  intros Hget Hseg Hr. unfold process_group, bind, lift.
  rewrite (tag_at_lookup _ _ _ _ Hseg), Hget. simpl.
  by rewrite bool_decide_eq_false_2 by lia.
Qed.

Lemma process_group_no_child (segments : list (list string)) idx path rep st tag payload
    m r l d :
  get_element G path = inr (Some (SegmentGroup [] m r l d)) →
  segments !! idx = Some (tag :: payload) →
  (Z.of_nat rep + 1 < r)%Z →
  process_group uid G segments idx path rep st = (st, inl IndexError).
Proof.
  intros Hget Hseg Hr. unfold process_group, bind, lift.
  rewrite (tag_at_lookup _ _ _ _ Hseg), Hget. simpl.
  by rewrite bool_decide_eq_false_2 by lia.
Qed.


(** Entering a group and matching its first child, as two steps of
    [process_segments]. *)
Lemma process_segments_enter fuel (segments : list (list string)) idx path rep st payload
    ctag cm cr cl cd cs m r l d :
  get_element G path
    = inr (Some (SegmentGroup (PlaceholderSegment ctag cm cr cl cd :: cs) m r l d)) →
  segments !! idx = Some (ctag :: payload) →
  (Z.of_nat rep + 1 < r)%Z →
  ctag ∉ segments_to_ignore →
  labels_joinable
    (open_container uid (SegmentGroup (PlaceholderSegment ctag cm cr cl cd :: cs) m r l d) st)
  = true →
  process_segments uid G (S (S fuel)) segments idx path rep st =
  let st2 :=
    with_segment (PlaceholderSegment ctag cm cr cl cd) (ctag :: payload)
      (open_container uid
         (SegmentGroup (PlaceholderSegment ctag cm cr cl cd :: cs) m r l d) st) in
  if bool_decide (cr ≤ Z.of_nat (rep + 1) + 1)%Z
  then process_segments uid G fuel segments (idx + 1) (path ++ [1]) 0 st2
  else process_segments uid G fuel segments (idx + 1) (path ++ [0]) (rep + 1 + 1) st2.
Proof.
  intros Hget Hseg Hr Hign Hjoin.
  pose proof (get_element_child _ 0 _ _ _ _ _ Hget) as Hchild. simpl in Hchild.
  rewrite (process_segments_step _ _ _ _ _ _ _ _ _ Hseg Hign Hget).
  rewrite (process_group_first_segment _ _ _ _ _ _ _ _ _ _ _ _ _ _ _ _ _ Hget Hseg Hr).
  rewrite bool_decide_eq_true_2 by done. rewrite Hjoin.
  rewrite (process_segments_step _ _ _ _ _ _ _ _ _ Hseg Hign Hchild).
  rewrite (process_segment_match _ _ _ _ _ _ _ _ _ _ _ Hchild Hseg).
  rewrite incr_last_snoc. simpl. by case_bool_decide.
Qed.

(** ** The current container *)

Lemma with_segment_spec etag m r l d payload st :
  containers_allocated st →
  let st' := with_segment (PlaceholderSegment etag m r l d) (etag :: payload) st in
  current_entries (segment_key etag l) st'
    = current_entries (segment_key etag l) st
      ++ [NSegment (DummySegment_init payload (Some etag) l d)]
  ∧ last_containers st' = last_containers st
  ∧ length (heap st') = length (heap st)
  ∧ containers_allocated st'.
Proof.
  intros Halloc. unfold with_segment, add_segment, add_to_parent, add_to_data, modify.
  unfold current_entries, containers_allocated. simpl.
  destruct (last (last_containers st)) as [parent|] eqn:Hlast; simpl; rewrite Hlast.
  - assert (parent < length (heap st)) as Hlt.
    { apply Halloc, list_elem_of_lookup. exists (pred (length (last_containers st))).
      by rewrite <- last_lookup. }
    destruct (lookup_lt_is_Some_2 _ _ Hlt) as [g Hg].
    rewrite list_lookup_alter, Hg, length_alter. simpl.
    split_and!; [|done..].
    rewrite decide_True by done. unfold Group_add, dict_append, segment_key.
    destruct l as [lab|]; simpl; rewrite lookup_insert_eq;
      by destruct (g_elements g) as [els|]; simpl; [destruct (els !! _)|].
  - split_and!; [|done..].
    unfold dict_append, segment_key.
    destruct l as [lab|]; simpl; rewrite lookup_insert_eq; by destruct (data st !! _).
Qed.

(** Several segments of one node added in a row. *)
Lemma with_segments_spec etag m r l d (payloads : list (list string)) :
  ∀ st,
    containers_allocated st →
    let st' := foldl (λ s p, with_segment (PlaceholderSegment etag m r l d) (etag :: p) s)
                 st payloads in
    current_entries (segment_key etag l) st'
      = current_entries (segment_key etag l) st
        ++ ((λ p, NSegment (DummySegment_init p (Some etag) l d)) <$> payloads)
    ∧ last_containers st' = last_containers st
    ∧ length (heap st') = length (heap st)
    ∧ containers_allocated st'.
Proof.
  induction payloads as [|p payloads IH]; intros st Halloc; simpl.
  - by rewrite app_nil_r.
  - destruct (with_segment_spec etag m r l d p st Halloc)
      as (Hentries & Hlc & Hheap & Halloc').
    destruct (IH _ Halloc') as (IH1 & IH2 & IH3 & IH4).
    split_and!; [|congruence..|done].
    rewrite IH1, Hentries. by rewrite <- app_assoc.
Qed.

(** A group that has just been opened is empty. *)
Lemma current_entries_open cs m r l d st key :
  containers_allocated st →
  current_entries key (open_container uid (SegmentGroup cs m r l d) st) = [].
Proof.
  intros Halloc. rewrite open_container_unfold. cbv zeta.
  unfold current_entries. cbn [last_containers heap]. rewrite last_snoc.
  unfold add_to_parent, add_to_data, modify. cbn [last_containers].
  destruct (last (last_containers st)) as [parent|] eqn:Hlast; simpl.
  - assert (parent < length (heap st)) as Hlt.
    { apply Halloc, list_elem_of_lookup. exists (pred (length (last_containers st))).
      by rewrite <- last_lookup. }
    rewrite list_lookup_alter, decide_False by lia.
    by rewrite lookup_app_r, Nat.sub_diag by lia.
  - by rewrite lookup_app_r, Nat.sub_diag by lia.
Qed.

(** ** Bounds on the indices of a path that resolves *)

Lemma element_width_child cs m r l d i c :
  cs !! i = Some c →
  i < element_width (SegmentGroup cs m r l d)
  ∧ element_width c ≤ element_width (SegmentGroup cs m r l d).
Proof.
  intros Hc. split.
  - pose proof (lookup_lt_Some _ _ _ Hc). simpl. lia.
  - simpl. apply Nat.max_le_iff. right.
    revert i Hc. induction cs as [|c0 cs IH]; intros [|i] Hc; simplify_eq/=; [lia|].
    specialize (IH _ Hc). lia.
Qed.

Lemma get_element_loop_None rest e : get_element_loop None rest ≠ inr (Some e).
Proof. by destruct rest. Qed.

Lemma get_element_loop_width W rest result e :
  (∀ e0, result = Some e0 → element_width e0 ≤ W) →
  get_element_loop result rest = inr (Some e) →
  element_width e ≤ W.
Proof.
  revert result. induction rest as [|i rest IH]; intros result Hres; simpl.
  - intros [= ->]. by apply Hres.
  - destruct result as [e0|]; [|done].
    destruct e0 as [|cs m r l d]; simpl; [done|].
    destruct (cs !! i) as [c|] eqn:Hc.
    + apply IH. intros ? [= <-].
      pose proof (element_width_child cs m r l d i c Hc) as [_ Hle].
      specialize (Hres _ eq_refl). lia.
    + intros H. by apply get_element_loop_None in H.
Qed.

(** The last index of a path that resolves to a node is below the width
    of the grammar. *)
Lemma get_element_last_bound path e :
  get_element G path = inr (Some e) →
  ∃ q i, path = q ++ [i] ∧ i < grammar_width G.
Proof.
  destruct path as [|i0 rest]; [done|]. simpl.
  case_bool_decide as Hi0; [done|].
  destruct (snoc_cases rest) as [-> | (q & i & ->)].
  - simpl. intros _. exists [], i0. split; [done|].
    unfold grammar_width. simpl. lia.
  - rewrite get_element_loop_snoc.
    destruct (get_element_loop (G !! i0) q) as [x|[e'|]] eqn:Hq; [done| |done].
    destruct e' as [|cs m r l d]; simpl; [done|].
    destruct (cs !! i) as [c|] eqn:Hc; [|done]. intros _.
    exists (i0 :: q), i. split; [done|].
    pose proof (element_width_child cs m r l d i c Hc) as [Hlt _].
    assert (element_width (SegmentGroup cs m r l d) ≤ grammar_width G); [|lia].
    eapply get_element_loop_width; [|exact Hq].
    intros e0 He0. by apply (element_width_child G true 1 None None i0).
Qed.

Lemma path_weight_snoc W q i : path_weight W (q ++ [i]) = path_weight W q + S (W - i).
Proof. unfold path_weight. rewrite sum_list_with_app. simpl. lia. Qed.

Lemma path_weight_drop_last W path :
  path ≠ [] → path_weight W (drop_last path) < path_weight W path.
Proof.
  destruct (snoc_cases path) as [-> | (q & i & ->)]; [done|]. intros _.
  rewrite drop_last_snoc, path_weight_snoc. lia.
Qed.

Lemma path_weight_incr_last_le W path : path_weight W (incr_last path) ≤ path_weight W path.
Proof.
  destruct (snoc_cases path) as [-> | (q & i & ->)]; [done|].
  rewrite incr_last_snoc, !path_weight_snoc. lia.
Qed.

Lemma path_weight_incr_last_lt path e :
  get_element G path = inr (Some e) →
  path_weight (grammar_width G) (incr_last path) < path_weight (grammar_width G) path.
Proof.
  intros (q & i & -> & Hi)%get_element_last_bound.
  rewrite incr_last_snoc, !path_weight_snoc. lia.
Qed.

Lemma tag_at_inv (segments : list (list string)) idx tag :
  tag_at segments idx = inr tag → ∃ payload, segments !! idx = Some (tag :: payload).
Proof.
  unfold tag_at. destruct (segments !! idx) as [[|t payload]|]; [done| |done].
  intros [= ->]. eauto.
Qed.

(** ** Progress of a step *)

Lemma engine_step_resolved (segments : list (list string)) idx path rep st tag payload e :
  segments !! idx = Some (tag :: payload) →
  tag ∉ segments_to_ignore →
  get_element G path = inr e →
  engine_step uid G segments idx path rep st =
  match
    match e with
    | None => process_end idx path rep
    | Some (SegmentGroup _ _ _ _ _) => process_group uid G segments idx path rep
    | Some (PlaceholderSegment _ _ _ _ _) => process_segment G segments idx path rep
    end st
  with
  | (s', inl x) => (s', Halt (inl x))
  | (s', inr (idx', path', rep')) => (s', Continue idx' path' rep')
  end.
Proof.
  intros Hseg Hign Hget. unfold engine_step.
  pose proof (lookup_lt_Some _ _ _ Hseg) as Hlt.
  pose proof (get_element_nonempty _ _ Hget) as Hne.
  rewrite bool_decide_eq_false_2 by lia.
  rewrite bool_decide_eq_false_2 by (destruct path; [done | simpl; lia]).
  simpl. rewrite (tag_at_lookup _ _ _ _ Hseg).
  rewrite bool_decide_eq_false_2 by done.
  by rewrite Hget.
Qed.

(** A step that goes on has consumed a segment, or moved to the next
    sibling or one level up, or entered a group; in the last case the
    step that follows consumes the segment. *)
Lemma engine_step_progress (segments : list (list string)) idx path rep st
    st' idx' path' rep' :
  engine_step uid G segments idx path rep st = (st', Continue idx' path' rep') →
  idx < length segments
  ∧ (idx' = idx + 1
     ∧ path_weight (grammar_width G) path' ≤ path_weight (grammar_width G) path
     ∨ idx' = idx
       ∧ (path' = incr_last path ∨ path' = drop_last path)
       ∧ path_weight (grammar_width G) path' < path_weight (grammar_width G) path
     ∨ idx' = idx ∧ path' = path ++ [0]
       ∧ ∃ st'' path'' rep'',
           engine_step uid G segments idx path' rep' st' = (st'', Continue (idx + 1) path'' rep'')
           ∧ path_weight (grammar_width G) path''
             ≤ path_weight (grammar_width G) path + S (grammar_width G)).
Proof.
  intros Hstep. unfold engine_step in Hstep. revert Hstep.
  destruct (bool_decide (length segments ≤ idx)) eqn:Hlen; [done|].
  destruct (bool_decide (length path < 1)) eqn:Hp; [done|]. simpl.
  apply bool_decide_eq_false in Hlen, Hp.
  assert (path ≠ []) as Hne by (intros ->; simpl in Hp; lia).
  destruct (tag_at segments idx) as [x|tag] eqn:Htag; [done|].
  apply tag_at_inv in Htag as [payload Hseg].
  case_bool_decide as Hign.
  { intros [= <- <- <- <-]. split; [lia|]. by left. }
  destruct (get_element G path) as [x|e] eqn:Hget; [done|].
  destruct e as [[etag m r l d|cs m r l d]|].
  - destruct (decide (tag = etag)) as [->|Htag].
    + rewrite (process_segment_match _ _ _ _ _ _ _ _ _ _ _ Hget Hseg).
      case_bool_decide; intros [= <- <- <- <-]; (split; [lia|]); left; (split; [done|]).
      * apply path_weight_incr_last_le.
      * done.
    + rewrite (process_segment_mismatch _ _ _ _ _ _ _ _ _ _ _ _ Hget Hseg Htag).
      destruct (m && bool_decide (rep = 0)); [done|].
      intros [= <- <- <- <-]. split; [lia|]. right; left.
      split_and!; [done|by left|]. by eapply path_weight_incr_last_lt.
  - destruct (decide (r ≤ Z.of_nat rep + 1)%Z) as [Hr|Hr].
    + rewrite (process_group_exhausted _ _ _ _ _ _ _ _ _ _ _ _ Hget Hseg Hr), process_end_eq.
      destruct (labels_joinable (close_container st)); [|done].
      intros [= <- <- <- <-]. split; [lia|]. right; left.
      split_and!; [done|by right|]. by apply path_weight_drop_last.
    + assert (Z.of_nat rep + 1 < r)%Z as Hr' by lia.
      destruct cs as [|[ctag cm cr cl cd|ccs cm cr cl cd] cs].
      * by rewrite (process_group_no_child _ _ _ _ _ _ _ _ _ _ _ Hget Hseg Hr').
      * rewrite (process_group_first_segment _ _ _ _ _ _ _ _ _ _ _ _ _ _ _ _ _ Hget Hseg Hr').
        case_bool_decide as Hc.
        -- destruct (labels_joinable _); [|done].
           intros [= <- <- <- <-]. split; [lia|]. right; right.
           split_and!; [done..|]. subst ctag.
           pose proof (get_element_child _ 0 _ _ _ _ _ Hget) as Hchild. simpl in Hchild.
           rewrite (engine_step_resolved _ _ _ _ _ _ _ _ Hseg Hign Hchild).
           rewrite (process_segment_match _ _ _ _ _ _ _ _ _ _ _ Hchild Hseg).
           rewrite incr_last_snoc.
           case_bool_decide; eexists _, _, _; (split; [done|]);
             rewrite path_weight_snoc; lia.
        -- intros [= <- <- <- <-]. split; [lia|]. right; left.
           split_and!; [done|by left|]. by eapply path_weight_incr_last_lt.
      * by rewrite (process_group_first_group segments idx path rep st tag payload
                      _ _ _ _ _ _ _ _ _ _ Hget Hseg Hr').
  - rewrite process_end_eq.
    destruct (labels_joinable (close_container st)); [|done].
    intros [= <- <- <- <-]. split; [lia|]. right; left.
    split_and!; [done|by right|]. by apply path_weight_drop_last.
Qed.

(** ** Termination *)

Lemma engine_measure_consumed (segments : list (list string)) idx path path' :
  idx < length segments →
  path_weight (grammar_width G) path'
    ≤ path_weight (grammar_width G) path + S (grammar_width G) →
  engine_measure G segments (idx + 1) path' < engine_measure G segments idx path.
Proof.
  intros Hlt Hw. unfold engine_measure.
  replace (length segments - idx) with (S (length segments - (idx + 1))) by lia.
  simpl. lia.
Qed.

Lemma process_segments_terminates_below (segments : list (list string)) n :
  ∀ idx path rep st,
    engine_measure G segments idx path ≤ n →
    ∃ fuel r, ∀ k, process_segments uid G (fuel + k) segments idx path rep st = Some r.
Proof.
  induction n as [n IH] using lt_wf_ind. intros idx path rep st Hn.
  destruct (engine_step uid G segments idx path rep st) as [st' [r|idx' path' rep']] eqn:Hstep.
  { exists 1, (st', r). intros k. simpl plus. by rewrite process_segments_unfold, Hstep. }
  destruct (engine_step_progress _ _ _ _ _ _ _ _ _ Hstep)
    as [Hlt [(-> & Hw) | [(-> & _ & Hw) | (-> & -> & st'' & path'' & rep'' & Hstep' & Hw)]]].
  - assert (engine_measure G segments (idx + 1) path' < n) as Hm.
    { pose proof (engine_measure_consumed segments idx path path' Hlt). lia. }
    destruct (IH _ Hm (idx + 1) path' rep' st' (le_n _)) as (fuel & r & Hrun).
    exists (S fuel), r. intros k. simpl plus.
    by rewrite process_segments_unfold, Hstep.
  - assert (engine_measure G segments idx path' < n) as Hm.
    { unfold engine_measure in *. lia. }
    destruct (IH _ Hm idx path' rep' st' (le_n _)) as (fuel & r & Hrun).
    exists (S fuel), r. intros k. simpl plus.
    by rewrite process_segments_unfold, Hstep.
  - assert (engine_measure G segments (idx + 1) path'' < n) as Hm.
    { pose proof (engine_measure_consumed segments idx path path'' Hlt Hw). lia. }
    destruct (IH _ Hm (idx + 1) path'' rep'' st'' (le_n _)) as (fuel & r & Hrun).
    exists (S (S fuel)), r. intros k. simpl plus.
    by rewrite process_segments_unfold, Hstep, process_segments_unfold, Hstep'.
Qed.

(** ** Several steps *)

Lemma engine_steps_snoc (segments : list (list string)) n :
  ∀ idx path rep st,
    engine_steps uid G segments (n + 1) idx path rep st
    = match engine_steps uid G segments n idx path rep st with
      | (s', Continue idx' path' rep') => engine_step uid G segments idx' path' rep' s'
      | (s', Halt r) => (s', Halt r)
      end.
Proof.
  induction n as [|n IH]; intros idx path rep st; simpl.
  - by destruct (engine_step uid G segments idx path rep st) as [s' [r|idx' path' rep']].
  - destruct (engine_step uid G segments idx path rep st) as [s' [r|idx' path' rep']]; [done|].
    apply IH.
Qed.

(** A run is its first [n] steps followed by the run from where they end. *)
Lemma process_segments_steps (segments : list (list string)) n fuel :
  ∀ idx path rep st,
    process_segments uid G (n + fuel) segments idx path rep st
    = match engine_steps uid G segments n idx path rep st with
      | (s', Continue idx' path' rep') =>
          process_segments uid G fuel segments idx' path' rep' s'
      | (s', Halt r) => Some (s', r)
      end.
Proof.
  induction n as [|n IH]; intros idx path rep st; [done|].
  change (S n + fuel) with (S (n + fuel)). rewrite process_segments_unfold. simpl.
  destruct (engine_step uid G segments idx path rep st) as [s' [r|idx' path' rep']]; [done|].
  apply IH.
Qed.

(** The steps on a segment node that is matched by the input, from the
    repeat count that leaves room for exactly the segments that come. *)
Lemma engine_steps_segment (segments : list (list string)) idx path rep st
    etag m (N : nat) l d (payloads : list (list string)) n :
  get_element G path = inr (Some (PlaceholderSegment etag m (Z.of_nat N) l d)) →
  rep + length payloads = N →
  (∀ k p, payloads !! k = Some p → segments !! (idx + k) = Some (etag :: p)) →
  etag ∉ segments_to_ignore →
  1 ≤ length payloads →
  n ≤ length payloads →
  engine_steps uid G segments n idx path rep st
  = (foldl (λ s p, with_segment (PlaceholderSegment etag m (Z.of_nat N) l d) (etag :: p) s)
       st (take n payloads),
     if bool_decide (n = length payloads)
     then Continue (idx + length payloads) (incr_last path) 0
     else Continue (idx + n) path (rep + n)).
Proof.
  intros Hget Hlen Hsegs Hign HN. induction n as [|n IH]; intros Hn.
  - simpl. rewrite bool_decide_eq_false_2 by lia. by rewrite !Nat.add_0_r.
  - replace (S n) with (n + 1) by lia. rewrite engine_steps_snoc, IH by lia.
    rewrite bool_decide_eq_false_2 by lia.
    destruct (lookup_lt_is_Some_2 payloads n) as [p Hp]; [lia|].
    pose proof (Hsegs _ _ Hp) as Hseg.
    rewrite (engine_step_resolved _ _ _ _ _ _ _ _ Hseg Hign Hget).
    rewrite (process_segment_match _ _ _ _ _ _ _ _ _ _ _ Hget Hseg).
    replace (take (n + 1) payloads) with (take (S n) payloads) by (f_equal; lia).
    rewrite (take_S_r _ _ _ Hp), foldl_app. simpl.
    clear IH.
    destruct (decide (n + 1 = length payloads)) as [Hlast|Hlast].
    + rewrite !bool_decide_eq_true_2 by lia.
      replace (idx + n + 1) with (idx + length payloads) by lia. done.
    + rewrite !bool_decide_eq_false_2 by lia.
      by rewrite !Nat.add_assoc.
Qed.

(** ** Properties of single steps *)

(** C2. When the current grammar node is a mandatory segment, the repeat
    count is 0 and the tag of the next input segment differs from the
    node's tag, [process_segment] raises [MissingSegmentAtPositionError]
    with the node's tag and leaves the store as it was: nothing has been
    added to any container.  The engine reaches that call whenever the
    input tag is not one of [segments_to_ignore], and then raises the same
    exception with the same store. *)
Theorem mandatory_segment_mismatch_raises (segments : list (list string)) idx path st
    tag payload etag r l d :
  get_element G path = inr (Some (PlaceholderSegment etag true r l d)) →
  segments !! idx = Some (tag :: payload) →
  tag ≠ etag →
  process_segment G segments idx path 0 st = (st, inl (MissingSegmentAtPositionError etag))
  ∧ (tag ∉ segments_to_ignore →
     ∀ fuel, process_segments uid G (S fuel) segments idx path 0 st
             = Some (st, inl (MissingSegmentAtPositionError etag))).
Proof.
  intros Hget Hseg Hne.
  assert (process_segment G segments idx path 0 st
          = (st, inl (MissingSegmentAtPositionError etag))) as Hstep.
  { by rewrite (process_segment_mismatch _ _ _ _ _ _ _ _ _ _ _ _ Hget Hseg Hne). }
  split; [done|]. intros Hign fuel.
  by rewrite (process_segments_step _ _ _ _ _ _ _ _ _ Hseg Hign Hget), Hstep.
Qed.

(** C10. A group whose declared [repeats] is 1 (or less) is never
    entered: whatever the input tag and the repeat count, [process_group]
    does what [process_end] does.  No [Group] is created and nothing is
    added to [Message.data]; the open container is closed and the path
    loses its last index instead of moving to the next sibling, so the
    engine goes on one level up, and for a group at the top level it
    returns at once.  The listing of the groups that stay open is the
    only thing that can fail on the way: where a group without label is
    among them the call raises [TypeError] after the container has been
    closed. *)
Theorem group_with_one_repeat_never_entered (segments : list (list string)) idx path rep st
    tag payload cs m r l d :
  get_element G path = inr (Some (SegmentGroup cs m r l d)) →
  segments !! idx = Some (tag :: payload) →
  (r ≤ 1)%Z →
  process_group uid G segments idx path rep st = process_end idx path rep st
  ∧ process_group uid G segments idx path rep st
    = (close_container st,
       if labels_joinable (close_container st)
       then inr (idx, drop_last path, 0)
       else inl TypeError)
  ∧ (last_containers st = [] → labels_joinable (close_container st) = true)
  ∧ (labels_joinable st = true → labels_joinable (close_container st) = true)
  ∧ ¬ enters_group uid G segments idx path rep st
  ∧ data (close_container st) = data st
  ∧ heap (close_container st) = heap st
  ∧ (tag ∉ segments_to_ignore →
     ∀ fuel, process_segments uid G (S fuel) segments idx path rep st
             = if labels_joinable (close_container st)
               then process_segments uid G fuel segments idx (drop_last path) 0
                      (close_container st)
               else Some (close_container st, inl TypeError))
  ∧ (tag ∉ segments_to_ignore → length path = 1 →
     ∀ fuel, process_segments uid G (S (S fuel)) segments idx path rep st
             = Some (close_container st,
                     if labels_joinable (close_container st) then inr tt else inl TypeError)).
Proof.
  intros Hget Hseg Hr.
  assert (process_group uid G segments idx path rep st = process_end idx path rep st) as Hend.
  { by rewrite (process_group_exhausted _ _ _ _ _ _ _ _ _ _ _ _ Hget Hseg) by lia. }
  pose proof Hend as Hstep. rewrite process_end_eq in Hstep.
  assert (∀ fuel, tag ∉ segments_to_ignore →
            process_segments uid G (S fuel) segments idx path rep st
            = if labels_joinable (close_container st)
              then process_segments uid G fuel segments idx (drop_last path) 0
                     (close_container st)
              else Some (close_container st, inl TypeError))
    as Hrun.
  { intros fuel Hign.
    rewrite (process_segments_step _ _ _ _ _ _ _ _ _ Hseg Hign Hget), Hstep.
    by destruct (labels_joinable (close_container st)). }
  split_and!.
  - done.
  - done.
  - intros Hlc. apply labels_joinable_no_container.
    unfold close_container. rewrite Hlc. done.
  - apply labels_joinable_close.
  - intros (s' & rep' & Henter). rewrite Hstep in Henter.
    destruct (labels_joinable (close_container st)); [|done].
    assert (length (drop_last path) = length (path ++ [0])) as Hlen by congruence.
    rewrite length_drop_last, length_app in Hlen. simpl in Hlen. lia.
  - unfold close_container. by case_bool_decide.
  - unfold close_container. by case_bool_decide.
  - intros Hign fuel. by apply Hrun.
  - intros Hign Hlen fuel. rewrite Hrun by done.
    destruct (labels_joinable (close_container st)); [|done].
    apply process_segments_halt. right.
    apply length_zero_iff_nil. rewrite length_drop_last. lia.
Qed.

(** C7: what the code does instead.  Whenever [process_group] enters a
    group (returns the path extended by 0), the repeat count it hands to
    the deeper level is the count it was called with plus one, hence never 0;
    the segment index is unchanged and the store is the one in which the
    new [Group] has been created, added to its parent and pushed on
    [last_containers]. *)
Theorem group_entry_increments_repeats (segments : list (list string)) idx path rep st
    st' idx' rep' :
  process_group uid G segments idx path rep st = (st', inr (idx', path ++ [0], rep')) →
  rep' = rep + 1 ∧ rep' ≠ 0 ∧ idx' = idx
  ∧ ∃ group, get_element G path = inr (Some group) ∧ st' = open_container uid group st.
Proof.
  unfold process_group, bind, lift.
  destruct (tag_at segments idx) as [x|tag]; [done|].
  destruct (get_element G path) as [x|[group|]]; [done| |done].
  case_bool_decide.
  - rewrite process_end_eq. destruct (labels_joinable (close_container st)); [|done].
    intros [= _ _ Hpath _].
    assert (length (drop_last path) = length (path ++ [0])) as Hlen by congruence.
    rewrite length_drop_last, length_app in Hlen. simpl in Hlen. lia.
  - destruct (group_starts_with_segment group tag) as [x|starts] eqn:Hstarts; [done|].
    destruct starts; simpl.
    + destruct group as [|cs m r l d]; [done|].
      unfold add_group, bind, add_to_parent, add_to_data, modify, ret, join_labels. simpl.
      intros Heq.
      assert (rep' = rep + 1 ∧ idx' = idx
              ∧ st' = open_container uid (SegmentGroup cs m r l d) st) as (-> & -> & ->).
      { unfold open_container, add_group, bind, add_to_parent, add_to_data, modify, ret.
        simpl.
        destruct (last (last_containers st)); simpl in *;
          destruct (labels_joinable _); by simplify_eq. }
      split_and!; [done|lia|done|]. by eexists.
    + rewrite (bool_decide_eq_false_2 (rep + 1 = 0)) by lia.
      rewrite andb_false_r. intros [= _ _ Hpath _].
      assert (length (incr_last path) = length (path ++ [0])) as Hlen by congruence.
      rewrite length_incr_last, length_app in Hlen. simpl in Hlen. lia.
Qed.






(** C9, as the code has it.  The engine terminates on every grammar and
    every input: some number of nested calls suffices, and any larger
    number gives the same outcome.  It returns as soon as the segment
    index is past the input or the path is empty.  A step that goes on
    either consumes one input segment, or stays at the segment and moves
    to the next sibling or one level up, or stays at the segment and
    enters a group (the path grows by a 0); after an entry the very next
    step consumes the segment.  [engine_measure] decreases along the
    first two kinds of step, and along an entry together with the step
    that follows it. *)
Theorem engine_terminates_and_progresses (segments : list (list string)) idx path rep st :
  (∃ fuel r, ∀ k, process_segments uid G (fuel + k) segments idx path rep st = Some r)
  ∧ (length segments ≤ idx ∨ path = [] →
     ∀ fuel, process_segments uid G (S fuel) segments idx path rep st = Some (st, inr tt))
  ∧ (∀ st' idx' path' rep',
       engine_step uid G segments idx path rep st = (st', Continue idx' path' rep') →
       idx' = idx + 1
       ∧ engine_measure G segments idx' path' < engine_measure G segments idx path
       ∨ idx' = idx
         ∧ (path' = incr_last path ∨ path' = drop_last path)
         ∧ engine_measure G segments idx' path' < engine_measure G segments idx path
       ∨ idx' = idx ∧ path' = path ++ [0]
         ∧ ∃ st'' path'' rep'',
             engine_step uid G segments idx path' rep' st'
               = (st'', Continue (idx + 1) path'' rep'')
             ∧ engine_measure G segments (idx + 1) path''
               < engine_measure G segments idx path).
Proof.
  split_and!.
  - by eapply process_segments_terminates_below.
  - intros Hhalt fuel. by apply process_segments_halt.
  - intros st' idx' path' rep' Hstep.
    destruct (engine_step_progress _ _ _ _ _ _ _ _ _ Hstep)
      as [Hlt [(-> & Hw) | [(-> & Hmove & Hw) | (-> & -> & st'' & path'' & rep'' & Hstep' & Hw)]]].
    + left. split; [done|]. apply engine_measure_consumed; [done|lia].
    + right; left. split_and!; [done..|]. unfold engine_measure. lia.
    + right; right. split_and!; [done..|].
      exists st'', path'', rep''. split; [done|]. by apply engine_measure_consumed.
Qed.

End Properties.

(** ** The scenarios *)

(** C1. With the grammar of a mandatory ["A"] followed by the optional
    group ["G1"] (two repeats, one mandatory ["B"]) and the input tags
    A, B, B, the engine returns normally from a fresh store; [data] then
    maps "A" to one segment and "G1" to two groups, each of which maps
    "B" to one segment. *)
Theorem scenario_A_B_B (uid : nat → string) (pA pB1 pB2 : list string) (k : nat) :
  process_segments uid grammar_A_G1 (7 + k) ["A" :: pA; "B" :: pB1; "B" :: pB2] 0 [0] 0
    initial_store
  = Some (mkStore {[ Some "A" := [plain_segment "A" pA];
                     Some "G1" := [NGroup 0; NGroup 1] ]}
            [group_G1_with_B false (uid 0) pB1; group_G1_with_B false (uid 1) pB2]
            [1] 2,
          inr tt).
Proof. vm_compute. reflexivity. Qed.

(** C3: what the code does instead.  [process_group] never raises
    [MissingSegmentAtPositionError]: the repeat count has been incremented
    before the test [repeats == 0].  With the mandatory group ["G1"] as
    grammar and the single input tag X the call moves to the next sibling
    and the engine returns normally with an empty result. *)
Theorem mandatory_group_mismatch_does_not_raise :
  (∀ uid G segments idx path rep st st' t,
     process_group uid G segments idx path rep st
     ≠ (st', inl (MissingSegmentAtPositionError t)))
  ∧ (∀ uid payload,
       process_group uid (grammar_G1 true) ["X" :: payload] 0 [0] 0 initial_store
       = (initial_store, inr (0, [1], 0)))
  ∧ (∀ uid payload k,
       process_segments uid (grammar_G1 true) (3 + k) ["X" :: payload] 0 [0] 0 initial_store
       = Some (initial_store, inr tt)).
Proof.
  split_and!; [|done..].
  intros uid G segments idx path rep st st' t.
  unfold process_group, bind, lift.
  destruct (tag_at segments idx) as [x|tag] eqn:Htag.
  { apply tag_at_error in Htag as [-> | ->]; congruence. }
  destruct (get_element G path) as [x|[group|]] eqn:Hget; [| |done].
  { apply get_element_error in Hget as [-> | ->]; congruence. }
  case_bool_decide.
  { rewrite process_end_eq. by destruct (labels_joinable (close_container st)). }
  destruct (group_starts_with_segment group tag) as [x|[]] eqn:Hstarts; simpl.
  - apply group_starts_with_segment_error in Hstarts as [-> | ->]; congruence.
  - unfold add_group, bind. destruct group; simpl; [done|].
    unfold add_to_parent, add_to_data, modify, ret, join_labels.
    destruct (last _); simpl; by destruct (labels_joinable _).
  - rewrite (bool_decide_eq_false_2 (rep + 1 = 0)) by lia.
    by rewrite andb_false_r.
Qed.

(** One entry of ["G1"] from a store without open group, and the segment
    B that follows: the new group is filed under "G1" in [data] and is
    the only open group. *)
Lemma G1_entered_and_filled (uid : nat → string) (payload : list string) (s : store) :
  last_containers s = [] →
  let s2 := with_segment seg_B ("B" :: payload)
              (open_container uid (SegmentGroup [seg_B] false 2 (Some "G1") None) s) in
  data s2 = dict_append (data s) (Some "G1") (NGroup (length (heap s)))
  ∧ length (heap s2) = S (length (heap s))
  ∧ last_containers s2 = [length (heap s)].
Proof.
  destruct s as [d h lc n]. simpl. intros ->.
  unfold with_segment, open_container, add_group, bind, add_to_parent. simpl.
  split_and!; [done| |done].
  rewrite length_alter, length_app. simpl. lia.
Qed.

Lemma G1_entered_for_every_B (uid : nat → string) (segments : list (list string)) :
  ∀ (todo : list (list string)) idx s,
    (∀ k p, todo !! k = Some p → segments !! (idx + k) = Some ("B" :: p)) →
    length segments = idx + length todo →
    last_containers s = [] →
    ∃ fuel s',
      (∀ k, process_segments uid (grammar_G1 false) (fuel + k) segments idx [0] 0 s
            = Some (s', inr tt))
      ∧ default [] (data s' !! Some "G1")
        = default [] (data s !! Some "G1") ++ (NGroup <$> seq (length (heap s)) (length todo)).
Proof.
  induction todo as [|p todo IH]; intros idx s Htodo Hlen Hlc.
  { exists 1, s. split; [|by rewrite app_nil_r].
    intros k. apply process_segments_halt. left. simpl in Hlen. lia. }
  pose proof (Htodo 0 p eq_refl) as Hseg. rewrite Nat.add_0_r in Hseg.
  assert ("B" ∉ segments_to_ignore) as Hign by (by apply (bool_decide_eq_false_1 _)).
  set (group := SegmentGroup [seg_B] false 2 (Some "G1") None).
  set (s1 := open_container uid group s).
  set (s2 := with_segment seg_B ("B" :: p) s1).
  destruct (G1_entered_and_filled uid p s Hlc) as (Hdata & Hheap & Hlc2).
  fold group s1 s2 in Hdata, Hheap, Hlc2.
  assert (∀ fuel, process_segments uid (grammar_G1 false) (S (S fuel)) segments idx [0] 0 s
                  = process_segments uid (grammar_G1 false) fuel segments (idx + 1) [0; 1] 0 s2)
    as Henter.
  { intros fuel.
    assert (labels_joinable s1 = true) as Hjoin.
    { unfold s1, group. rewrite labels_joinable_open; [done|].
      by apply labels_joinable_no_container. }
    by rewrite (process_segments_enter uid (grammar_G1 false) fuel segments idx [0] 0 s p
                  "B" true 1%Z None None [] false 2%Z (Some "G1") None
                  eq_refl Hseg ltac:(done) Hign Hjoin). }
  assert (default [] (data s2 !! Some "G1")
          = default [] (data s !! Some "G1") ++ [NGroup (length (heap s))]) as Hentries.
  { rewrite Hdata. unfold dict_append. by rewrite lookup_insert_eq. }
  destruct todo as [|p' todo].
  - exists 3, s2. split; [|done].
    intros k. change (3 + k) with (S (S (S k))). rewrite Henter.
    apply process_segments_halt. left. simpl in Hlen. lia.
  - pose proof (Htodo 1 p' eq_refl) as Hseg'.
    destruct (IH (idx + 1) (close_container s2)) as (fuel & s' & Hrun & Hs').
    + intros k q Hq. replace (idx + 1 + k) with (idx + S k) by lia. by apply Htodo.
    + simpl in *. lia.
    + unfold close_container. rewrite Hlc2. done.
    + exists (S (S (S fuel))), s'. split.
      * intros k. change (S (S (S fuel)) + k) with (S (S (S (fuel + k)))). rewrite Henter.
        rewrite (process_segments_step uid (grammar_G1 false) _ segments (idx + 1) [0; 1] 0
                   s2 "B" p' None Hseg' Hign eq_refl).
        rewrite process_end_eq.
        rewrite (labels_joinable_no_container (close_container s2))
          by (unfold close_container; by rewrite Hlc2).
        apply Hrun.
      * rewrite Hs'. unfold close_container. rewrite Hlc2. simpl.
        rewrite Hentries, Hheap. by rewrite <- app_assoc.
Qed.

(** C5: what the code does instead.  The group ["G1"] declares two
    repeats, yet it is entered once for every B of the input, however
    many there are: after n segments B, [data] maps "G1" to n groups.
    On the input tags B, B, B the result has three groups under "G1". *)
Theorem group_entered_more_often_than_repeats (uid : nat → string) :
  (∀ payloads : list (list string),
     ∃ fuel s',
       (∀ k, process_segments uid (grammar_G1 false) (fuel + k)
               ((λ p, "B" :: p) <$> payloads) 0 [0] 0 initial_store
             = Some (s', inr tt))
       ∧ default [] (data s' !! Some "G1") = NGroup <$> seq 0 (length payloads))
  ∧ (∀ (pB1 pB2 pB3 : list string) (k : nat),
       process_segments uid (grammar_G1 false) (9 + k) ["B" :: pB1; "B" :: pB2; "B" :: pB3]
         0 [0] 0 initial_store
       = Some (mkStore {[ Some "G1" := [NGroup 0; NGroup 1; NGroup 2] ]}
                 [group_G1_with_B false (uid 0) pB1; group_G1_with_B false (uid 1) pB2;
                  group_G1_with_B false (uid 2) pB3]
                 [2] 3,
               inr tt)).
Proof.
  split.
  - intros payloads.
    destruct (G1_entered_for_every_B uid ((λ p, "B" :: p) <$> payloads) payloads 0
                initial_store) as (fuel & s' & Hrun & Hs'); [| |done|by eauto].
    + intros k p Hp. simpl. by rewrite list_lookup_fmap, Hp.
    + by rewrite length_fmap.
  - intros. vm_compute. reflexivity.
Qed.

(** C8: what the code does instead.  [Message.data] and the default
    [last_containers] outlive a parse.  Parsing the single segment A
    twice with the grammar of one ["A"] leaves one entry under "A" after
    the first parse and two after the second.  Parsing the single segment
    B twice with the group ["G1"] leaves group 0 open after the first
    parse; the second parse then files its group under "G1" inside
    group 0 instead of in [data]. *)
Theorem second_parse_continues_the_first (uid : nat → string) (pA pB : list string) (k : nat) :
  Message_init uid [seg_A] (2 + k) ["A" :: pA] initial_store
    = Some (mkStore {[ Some "A" := [plain_segment "A" pA] ]} [] [] 0, inr tt)
  ∧ Message_init uid [seg_A] (2 + k) ["A" :: pA]
      (mkStore {[ Some "A" := [plain_segment "A" pA] ]} [] [] 0)
    = Some (mkStore {[ Some "A" := [plain_segment "A" pA; plain_segment "A" pA] ]} [] [] 0,
            inr tt)
  ∧ Message_init uid (grammar_G1 false) (3 + k) ["B" :: pB] initial_store
    = Some (store_after_B (uid 0) pB, inr tt)
  ∧ Message_init uid (grammar_G1 false) (3 + k) ["B" :: pB] (store_after_B (uid 0) pB)
    = Some (mkStore {[ Some "G1" := [NGroup 0] ]}
              [group_G1_reopened (uid 0) pB; group_G1_with_B false (uid 1) pB] [0; 1] 2,
            inr tt).
Proof. split_and!; vm_compute; reflexivity. Qed.

(** ** Concrete inputs on which the code and the specification part *)


(** C7 at a concrete input.  Entering ["G1"] on the input tag B from
    repeat count 0 hands repeat count 1 to the deeper level. *)
Lemma entry_does_not_reset_repeats : ¬ spec_entry_resets_repeats.
Proof.
  intros Hspec.
  pose proof (Hspec constant_uid (grammar_G1 false) [["B"]] 0 [0] 0 initial_store
                (open_container constant_uid (SegmentGroup [seg_B] false 2 (Some "G1") None)
                   initial_store)
                0 1 eq_refl) as H.
  discriminate H.
Qed.

(** C9, counterexample.  The step that enters ["G1"] on the input tag B
    neither consumes the segment nor moves to a sibling or a level up:
    the path [[0]] becomes [[0; 0]] at the same segment. *)
Lemma entry_step_neither_consumes_nor_advances :
  ¬ (engine_terminates ∧ spec_step_consumes_or_advances).
Proof.
  intros [_ Hspec].
  destruct (Hspec constant_uid (grammar_G1 false) [["B"]] 0 [0] 0 initial_store
              (open_container constant_uid (SegmentGroup [seg_B] false 2 (Some "G1") None)
                 initial_store)
              0 [0; 0] 1 eq_refl) as [H | [_ [H | H]]]; discriminate H.
Qed.

(** ** Instances of the properties on concrete inputs *)

Lemma not_ignored (tag : string) :
  bool_decide (tag ∈ segments_to_ignore) = false → tag ∉ segments_to_ignore.
Proof. intros H Hin. by rewrite bool_decide_eq_true_2 in H. Defined.

Lemma initial_containers_allocated : containers_allocated initial_store.
Proof. intros ref Hin. inversion Hin. Defined.

(** C2 on the grammar of a mandatory X and the input tag Y. *)
Lemma mandatory_segment_mismatch_raises_witness :
  get_element grammar_X [0] = inr (Some (PlaceholderSegment "X" true 1 None None))
  ∧ [["Y"; "1"]] !! 0 = Some ["Y"; "1"]
  ∧ "Y" ≠ "X"
  ∧ process_segment grammar_X [["Y"; "1"]] 0 [0] 0 initial_store
    = (initial_store, inl (MissingSegmentAtPositionError "X"))
  ∧ ∀ fuel, process_segments constant_uid grammar_X (S fuel) [["Y"; "1"]] 0 [0] 0 initial_store
            = Some (initial_store, inl (MissingSegmentAtPositionError "X")).
Proof.
  assert ("Y" ≠ "X") as Hne by discriminate.
  destruct (mandatory_segment_mismatch_raises constant_uid grammar_X [["Y"; "1"]] 0 [0]
              initial_store "Y" ["1"] "X" 1%Z None None eq_refl eq_refl Hne) as [Hstep Hrun].
  split_and!; [reflexivity | reflexivity | exact Hne | exact Hstep |].
  exact (Hrun (not_ignored "Y" eq_refl)).
Defined.



(** C7 on the group ["G1"] entered from repeat count 0. *)
Lemma group_entry_increments_repeats_witness :
  process_group constant_uid (grammar_G1 false) [["B"; "1"]] 0 [0] 0 initial_store
    = (mkStore {[ Some "G1" := [NGroup 0] ]} [mkGroup false 2 (Some "G1") None 0 "aaaaa" None]
         [0] 1,
       inr (0, [0] ++ [0], 1))
  ∧ 1 = 0 + 1 ∧ 1 ≠ 0.
Proof.
  assert (process_group constant_uid (grammar_G1 false) [["B"; "1"]] 0 [0] 0 initial_store
          = (mkStore {[ Some "G1" := [NGroup 0] ]}
               [mkGroup false 2 (Some "G1") None 0 "aaaaa" None] [0] 1,
             inr (0, [0] ++ [0], 1))) as Hstep by reflexivity.
  destruct (group_entry_increments_repeats constant_uid (grammar_G1 false) [["B"; "1"]]
              0 [0] 0 initial_store _ 0 1 Hstep) as (Hrep & Hnz & _).
  exact (conj Hstep (conj Hrep Hnz)).
Defined.

(** C9 on the scenario of C1: the run returns, and its first step
    consumes the segment A. *)
Lemma engine_terminates_and_progresses_witness :
  (∃ fuel r, ∀ k,
     process_segments constant_uid grammar_A_G1 (fuel + k) [["A"]; ["B"]; ["B"]] 0 [0] 0
       initial_store = Some r)
  ∧ (length [["A"]; ["B"]; ["B"]] ≤ 3 ∨ [0] = ([] : list nat))
  ∧ ∀ fuel, process_segments constant_uid grammar_A_G1 (S fuel) [["A"]; ["B"]; ["B"]] 3 [0] 0
              initial_store = Some (initial_store, inr tt).
Proof.
  destruct (engine_terminates_and_progresses constant_uid grammar_A_G1
              [["A"]; ["B"]; ["B"]] 0 [0] 0 initial_store) as (Hterm & _ & _).
  destruct (engine_terminates_and_progresses constant_uid grammar_A_G1
              [["A"]; ["B"]; ["B"]] 3 [0] 0 initial_store) as (_ & Hhalt & _).
  exact (conj Hterm (conj (or_introl (le_n 3)) (Hhalt (or_introl (le_n 3))))).
Defined.

(** C10 on a mandatory group of a single repeat followed by ["A"]: on the
    input tag B the engine returns at once with an empty result. *)
Lemma group_with_one_repeat_never_entered_witness :
  get_element grammar_single_G1_A [0]
    = inr (Some (SegmentGroup [seg_B] true 1 (Some "G1") None))
  ∧ [["B"; "1"]; ["A"; "2"]] !! 0 = Some ["B"; "1"]
  ∧ (1 ≤ 1)%Z
  ∧ process_group constant_uid grammar_single_G1_A [["B"; "1"]; ["A"; "2"]] 0 [0] 0 initial_store
    = (initial_store, inr (0, [], 0))
  ∧ ¬ enters_group constant_uid grammar_single_G1_A [["B"; "1"]; ["A"; "2"]] 0 [0] 0
        initial_store
  ∧ ∀ fuel,
      process_segments constant_uid grammar_single_G1_A (S (S fuel)) [["B"; "1"]; ["A"; "2"]]
        0 [0] 0 initial_store
      = Some (initial_store, inr tt).
Proof.
  assert (1 ≤ 1)%Z as Hr by reflexivity.
  destruct (group_with_one_repeat_never_entered constant_uid grammar_single_G1_A
              [["B"; "1"]; ["A"; "2"]] 0 [0] 0 initial_store "B" ["1"] [seg_B] true 1%Z
              (Some "G1") None eq_refl eq_refl Hr)
    as (_ & Hstep & _ & _ & Hnot & _ & _ & _ & Htop).
  split_and!; [reflexivity | reflexivity | exact Hr | exact Hstep | exact Hnot |].
  exact (Htop (not_ignored "B" eq_refl) eq_refl).
Defined.

(** * Further properties of the engine *)

Section Runs.

Variable uid : nat → string.
Variable G : list element.

(** ** Fuel *)

Lemma process_segments_more_fuel (segments : list (list string)) fuel :
  ∀ idx path rep st r,
    process_segments uid G fuel segments idx path rep st = Some r →
    ∀ k, process_segments uid G (fuel + k) segments idx path rep st = Some r.
Proof.
  induction fuel as [|fuel IH]; intros idx path rep st r Hrun k; [done|].
  change (S fuel + k) with (S (fuel + k)).
  rewrite process_segments_unfold in Hrun |- *.
  destruct (engine_step uid G segments idx path rep st) as [st' [out|idx' path' rep']]; [done|].
  by apply IH.
Qed.

Lemma process_segments_same_result (segments : list (list string)) fuel fuel'
    idx path rep st r r' :
  process_segments uid G fuel segments idx path rep st = Some r →
  process_segments uid G fuel' segments idx path rep st = Some r' →
  r = r'.
Proof.
  intros H H'.
  pose proof (process_segments_more_fuel _ _ _ _ _ _ _ H fuel') as H1.
  pose proof (process_segments_more_fuel _ _ _ _ _ _ _ H' fuel) as H2.
  rewrite (Nat.add_comm fuel' fuel) in H2. congruence.
Qed.

(** ** What one step does *)

(** A step that stops returns at the end of the input or of the grammar
    or raises.  The store is the one before the step, except where the
    listing of the open groups fails with [TypeError]: then a container
    has just been closed, or a group has just been created and opened. *)
Lemma engine_step_halt_cases (segments : list (list string)) idx path rep st st' out :
  engine_step uid G segments idx path rep st = (st', Halt out) →
  st' = st
  ∧ (out = inr tt ∧ (length segments ≤ idx ∨ path = [])
     ∨ out = inl IndexError ∧ segments !! idx = Some []
     ∨ (∃ x, out = inl x ∧ path ≠ [] ∧ get_element G path = inl x)
     ∨ (∃ x tag payload cs m r l d,
          out = inl x ∧ segments !! idx = Some (tag :: payload)
          ∧ get_element G path = inr (Some (SegmentGroup cs m r l d))
          ∧ group_starts_with_segment (SegmentGroup cs m r l d) tag = inl x)
     ∨ (∃ tag payload etag r l d,
          out = inl (MissingSegmentAtPositionError etag)
          ∧ segments !! idx = Some (tag :: payload) ∧ tag ≠ etag
          ∧ get_element G path = inr (Some (PlaceholderSegment etag true r l d))))
  ∨ (out = inl TypeError ∧ labels_joinable st' = false
     ∧ path ≠ [] ∧ st' = close_container st)
  ∨ (out = inl TypeError ∧ labels_joinable st' = false
     ∧ ∃ ctag cm cr cl cd cs m r l d payload,
         get_element G path
         = inr (Some (SegmentGroup (PlaceholderSegment ctag cm cr cl cd :: cs) m r l d))
         ∧ segments !! idx = Some (ctag :: payload) ∧ (ctag ∉ segments_to_ignore)
         ∧ st' = open_container uid
                   (SegmentGroup (PlaceholderSegment ctag cm cr cl cd :: cs) m r l d) st).
Proof.
  unfold engine_step.
  destruct (bool_decide (length segments ≤ idx)) eqn:Hlen.
  { apply bool_decide_eq_true in Hlen. simpl. intros [= <- <-]. left. split; [done|].
    left. eauto. }
  destruct (bool_decide (length path < 1)) eqn:Hp; simpl.
  { apply bool_decide_eq_true in Hp. intros [= <- <-]. left. split; [done|]. left.
    split; [done|]. right. destruct path; [done|simpl in Hp; lia]. }
  apply bool_decide_eq_false in Hlen, Hp.
  assert (path ≠ []) as Hpath by (intros ->; simpl in Hp; lia).
  destruct (tag_at segments idx) as [x|tag] eqn:Htag.
  { intros [= <- <-]. left. split; [done|]. right; left. unfold tag_at in Htag.
    destruct (segments !! idx) as [[|]|] eqn:Hseg; simplify_eq; [done|].
    apply lookup_ge_None in Hseg. lia. }
  apply tag_at_inv in Htag as [payload Hseg].
  case_bool_decide as Hign; [done|].
  destruct (get_element G path) as [x|e] eqn:Hget.
  { intros [= <- <-]. left. split; [done|]. right; right; left. by eexists. }
  destruct e as [[etag m r l d|cs m r l d]|].
  - destruct (decide (tag = etag)) as [->|Hne].
    + rewrite (process_segment_match G segments idx path rep st payload etag m r l d Hget Hseg).
      by case_bool_decide.
    + rewrite (process_segment_mismatch G segments idx path rep st tag payload etag m r l d
                 Hget Hseg Hne).
      destruct m; simpl; [|done]. case_bool_decide; [|done].
      intros [= <- <-]. left. split; [done|]. do 4 right. by eexists _, _, _, _, _, _.
  - destruct (decide (r ≤ Z.of_nat rep + 1)%Z) as [Hr|Hr].
    { rewrite (process_group_exhausted uid G segments idx path rep st tag payload cs m r l d
                 Hget Hseg Hr), process_end_eq.
      destruct (labels_joinable (close_container st)) eqn:Hjoin; [done|].
      intros [= <- <-]. right; left. done. }
    assert (Z.of_nat rep + 1 < r)%Z as Hr' by lia.
    destruct cs as [|[ctag cm cr cl cd|ccs cm cr cl cd] cs].
    + rewrite (process_group_no_child uid G segments idx path rep st tag payload m r l d
                 Hget Hseg Hr').
      intros [= <- <-]. left. split; [done|]. do 3 right; left.
      by eexists _, _, _, _, _, _, _, _.
    + rewrite (process_group_first_segment uid G segments idx path rep st tag payload
                 ctag cm cr cl cd cs m r l d Hget Hseg Hr').
      destruct (decide (ctag = tag)) as [->|Hc].
      * rewrite bool_decide_eq_true_2 by done.
        destruct (labels_joinable _) eqn:Hjoin; [done|].
        intros [= <- <-]. right; right. split_and!; [done..|].
        by eexists _, _, _, _, _, _, _, _, _, _, _.
      * by rewrite bool_decide_eq_false_2 by done.
    + rewrite (process_group_first_group uid G segments idx path rep st tag payload
                 _ _ _ _ _ _ _ _ _ _ Hget Hseg Hr').
      intros [= <- <-]. left. split; [done|]. do 3 right; left.
      by eexists _, _, _, _, _, _, _, _.
  - rewrite process_end_eq.
    destruct (labels_joinable (close_container st)) eqn:Hjoin; [done|].
    intros [= <- <-]. right; left. done.
Qed.

(** A step that goes on skips an envelope segment, moves to the next
    sibling, closes a level, files a segment or opens a group. *)
Lemma engine_step_continue_cases (segments : list (list string)) idx path rep st
    st' idx' path' rep' :
  engine_step uid G segments idx path rep st = (st', Continue idx' path' rep') →
  (∃ tag payload, segments !! idx = Some (tag :: payload) ∧ (tag ∈ segments_to_ignore)
     ∧ st' = st ∧ idx' = idx + 1 ∧ path' = path ∧ rep' = rep)
  ∨ (∃ e, get_element G path = inr (Some e)
       ∧ st' = st ∧ idx' = idx ∧ path' = incr_last path ∧ rep' = 0)
  ∨ (path ≠ [] ∧ st' = close_container st ∧ idx' = idx ∧ path' = drop_last path ∧ rep' = 0
     ∧ labels_joinable st' = true)
  ∨ (∃ etag m r l d payload,
       get_element G path = inr (Some (PlaceholderSegment etag m r l d))
       ∧ segments !! idx = Some (etag :: payload) ∧ (etag ∉ segments_to_ignore)
       ∧ st' = with_segment (PlaceholderSegment etag m r l d) (etag :: payload) st
       ∧ idx' = idx + 1 ∧ (path' = path ∨ path' = incr_last path))
  ∨ (∃ ctag cm cr cl cd cs m r l d payload,
       get_element G path
       = inr (Some (SegmentGroup (PlaceholderSegment ctag cm cr cl cd :: cs) m r l d))
       ∧ segments !! idx = Some (ctag :: payload) ∧ (ctag ∉ segments_to_ignore)
       ∧ st' = open_container uid
                 (SegmentGroup (PlaceholderSegment ctag cm cr cl cd :: cs) m r l d) st
       ∧ idx' = idx ∧ path' = path ++ [0] ∧ rep' = rep + 1
       ∧ labels_joinable st' = true).
Proof.
  unfold engine_step.
  destruct (bool_decide (length segments ≤ idx)) eqn:Hlen; [done|].
  destruct (bool_decide (length path < 1)) eqn:Hp; [done|]. simpl.
  apply bool_decide_eq_false in Hlen, Hp.
  assert (path ≠ []) as Hne by (intros ->; simpl in Hp; lia).
  destruct (tag_at segments idx) as [x|tag] eqn:Htag; [done|].
  apply tag_at_inv in Htag as [payload Hseg].
  case_bool_decide as Hign.
  { intros [= <- <- <- <-]. left. by eexists _, _. }
  destruct (get_element G path) as [x|e] eqn:Hget; [done|].
  destruct e as [[etag m r l d|cs m r l d]|].
  - destruct (decide (tag = etag)) as [->|Htag].
    + rewrite (process_segment_match G segments idx path rep st payload etag m r l d Hget Hseg).
      case_bool_decide; intros [= <- <- <- <-]; do 3 right; left;
        eexists _, _, _, _, _, _; (split_and!; [done..|]); [by right|by left].
    + rewrite (process_segment_mismatch G segments idx path rep st tag payload etag m r l d
                 Hget Hseg Htag).
      destruct (m && bool_decide (rep = 0)); [done|].
      intros [= <- <- <- <-]. right; left. by eexists.
  - destruct (decide (r ≤ Z.of_nat rep + 1)%Z) as [Hr|Hr].
    { rewrite (process_group_exhausted uid G segments idx path rep st tag payload cs m r l d
                 Hget Hseg Hr), process_end_eq.
      destruct (labels_joinable (close_container st)) eqn:Hjoin; [|done].
      intros [= <- <- <- <-]. do 2 right; left. done. }
    assert (Z.of_nat rep + 1 < r)%Z as Hr' by lia.
    destruct cs as [|[ctag cm cr cl cd|ccs cm cr cl cd] cs].
    + by rewrite (process_group_no_child uid G segments idx path rep st tag payload m r l d
                 Hget Hseg Hr').
    + rewrite (process_group_first_segment uid G segments idx path rep st tag payload
                 ctag cm cr cl cd cs m r l d Hget Hseg Hr').
      destruct (decide (ctag = tag)) as [->|Hc].
      * rewrite bool_decide_eq_true_2 by done.
        destruct (labels_joinable _) eqn:Hjoin; [|done].
        intros [= <- <- <- <-]. do 4 right.
        eexists _, _, _, _, _, _, _, _, _, _, _. split_and!; eauto.
      * rewrite bool_decide_eq_false_2 by done.
        intros [= <- <- <- <-]. right; left. by eexists.
    + by rewrite (process_group_first_group uid G segments idx path rep st tag payload
                    _ _ _ _ _ _ _ _ _ _ Hget Hseg Hr').
  - rewrite process_end_eq.
    destruct (labels_joinable (close_container st)) eqn:Hjoin; [|done].
    intros [= <- <- <- <-]. do 2 right; left. done.
Qed.

(** An invariant of the steps holds of the outcome of a run. *)
Lemma process_segments_invariant (segments : list (list string))
    (Inv : list nat → store → Prop) (Post : store → exn + unit → Prop) :
  (∀ idx path rep st st' out,
     Inv path st → engine_step uid G segments idx path rep st = (st', Halt out) →
     Post st' out) →
  (∀ idx path rep st st' idx' path' rep',
     Inv path st → engine_step uid G segments idx path rep st = (st', Continue idx' path' rep') →
     Inv path' st') →
  ∀ fuel idx path rep st st' out,
    Inv path st →
    process_segments uid G fuel segments idx path rep st = Some (st', out) →
    Post st' out.
Proof.
  intros Hhalt Hcont. induction fuel as [|fuel IH]; intros idx path rep st st' out HI; [done|].
  rewrite process_segments_unfold.
  destruct (engine_step uid G segments idx path rep st) as [st1 [out1|idx1 path1 rep1]] eqn:Hstep.
  - intros [= <- <-]. by eapply Hhalt.
  - apply IH. by eapply Hcont.
Qed.

(** ** The three ways the store changes *)

Lemma with_segment_eq etag m r l d seg st :
  with_segment (PlaceholderSegment etag m r l d) seg st
  = (add_to_parent (segment_key etag l)
       (NSegment (DummySegment_init (drop 1 seg) (Some etag) l d)) st).1.
Proof. reflexivity. Qed.

Lemma add_to_parent_eq label x st :
  (add_to_parent label x st).1
  = match last (last_containers st) with
    | Some parent =>
        mkStore (data st) (alter (Group_add label x) parent (heap st))
          (last_containers st) (draws st)
    | None => mkStore (dict_append (data st) label x) (heap st) (last_containers st) (draws st)
    end.
Proof. unfold add_to_parent. by destruct (last (last_containers st)). Qed.

Lemma add_to_parent_containers label x st :
  last_containers (add_to_parent label x st).1 = last_containers st.
Proof. rewrite add_to_parent_eq. by destruct (last (last_containers st)). Qed.

(** ** Results are only ever extended *)

Lemma dict_extends_refl d : dict_extends d d.
Proof. intros k entries Hk. exists []. by rewrite app_nil_r. Qed.

Lemma dict_extends_trans d1 d2 d3 :
  dict_extends d1 d2 → dict_extends d2 d3 → dict_extends d1 d3.
Proof.
  intros H12 H23 k entries Hk.
  destruct (H12 _ _ Hk) as [more Hk2]. destruct (H23 _ _ Hk2) as [more' Hk3].
  exists (more ++ more'). by rewrite app_assoc.
Qed.

Lemma dict_extends_append d label x : dict_extends d (dict_append d label x).
Proof.
  intros k entries Hk. unfold dict_append.
  destruct (decide (label = k)) as [->|Hne].
  - exists [x]. by rewrite lookup_insert_eq, Hk.
  - exists []. by rewrite lookup_insert_ne, app_nil_r.
Qed.

Lemma group_extends_refl g : group_extends g g.
Proof. unfold group_extends. split_and!; try done. apply dict_extends_refl. Qed.

Lemma group_extends_trans g1 g2 g3 :
  group_extends g1 g2 → group_extends g2 g3 → group_extends g1 g3.
Proof.
  unfold group_extends. intros (?&?&?&?&?&?&H12) (?&?&?&?&?&?&H23).
  split_and!; try congruence. by eapply dict_extends_trans.
Qed.

Lemma group_extends_add label x g : group_extends g (Group_add label x g).
Proof. unfold group_extends. split_and!; try done. apply dict_extends_append. Qed.

Lemma store_extends_refl st : store_extends st st.
Proof.
  split; [apply dict_extends_refl|]. intros ref g Hg. exists g.
  split; [done|apply group_extends_refl].
Qed.

Lemma store_extends_trans s1 s2 s3 :
  store_extends s1 s2 → store_extends s2 s3 → store_extends s1 s3.
Proof.
  intros [Hd12 Hh12] [Hd23 Hh23]. split; [by eapply dict_extends_trans|].
  intros ref g Hg. destruct (Hh12 _ _ Hg) as (g2 & Hg2 & He2).
  destruct (Hh23 _ _ Hg2) as (g3 & Hg3 & He3).
  exists g3. split; [done|by eapply group_extends_trans].
Qed.

Lemma store_extends_add_to_parent label x st :
  store_extends st (add_to_parent label x st).1.
Proof.
  rewrite add_to_parent_eq. destruct (last (last_containers st)) as [parent|]; split; simpl.
  - apply dict_extends_refl.
  - intros ref g Hg. rewrite list_lookup_alter. case_decide; simplify_eq; rewrite Hg; simpl.
    + eexists. split; [done|apply group_extends_add].
    + eexists. split; [done|apply group_extends_refl].
  - apply dict_extends_append.
  - intros ref g Hg. exists g. split; [done|apply group_extends_refl].
Qed.

Lemma store_extends_close st : store_extends st (close_container st).
Proof.
  unfold close_container. case_bool_decide; [|apply store_extends_refl].
  split; simpl; [apply dict_extends_refl|].
  intros ref g Hg. exists g. split; [done|apply group_extends_refl].
Qed.

Lemma store_extends_open cs m r l d st :
  store_extends st (open_container uid (SegmentGroup cs m r l d) st).
Proof.
  rewrite open_container_unfold. cbv zeta.
  set (st1 := mkStore (data st) (heap st ++ _) (last_containers st) (S (draws st))).
  apply (store_extends_trans _ st1).
  { split; simpl; [apply dict_extends_refl|].
    intros ref g Hg. exists g. split; [|apply group_extends_refl].
    by apply lookup_app_l_Some. }
  destruct (store_extends_add_to_parent l (NGroup (length (heap st))) st1) as [Hd Hh].
  by split.
Qed.

(** The store after a step extends the store before it. *)
Lemma engine_step_extends (segments : list (list string)) idx path rep st st' res :
  engine_step uid G segments idx path rep st = (st', res) → store_extends st st'.
Proof.
  destruct res as [out|idx' path' rep']; intros Hstep.
  - apply engine_step_halt_cases in Hstep
      as [[-> _] | [(_&_&_&->) | (_&_&Hgrp)]].
    + apply store_extends_refl.
    + apply store_extends_close.
    + destruct Hgrp as (ctag&cm&cr&cl&cd&cs&m&r&l&d&payload&_&_&_&->).
      apply store_extends_open.
  - apply engine_step_continue_cases in Hstep
      as [(?&?&?&?&->&?) | [(?&?&->&?) | [(?&->&?) | [Hseg | Hgrp]]]];
      try apply store_extends_refl.
    + apply store_extends_close.
    + destruct Hseg as (etag&m&r&l&d&payload&_&_&_&->&_).
      rewrite with_segment_eq. apply store_extends_add_to_parent.
    + destruct Hgrp as (ctag&cm&cr&cl&cd&cs&m&r&l&d&payload&_&_&_&->&_).
      apply store_extends_open.
Qed.

(** ** No key is bound to an empty list *)

Lemma dict_nonempty_append d label x : dict_nonempty d → dict_nonempty (dict_append d label x).
Proof.
  intros Hd k entries. unfold dict_append.
  destruct (decide (label = k)) as [->|Hne].
  - rewrite lookup_insert_eq. intros [= <-]. by destruct (default [] (d !! k)).
  - rewrite lookup_insert_ne by done. apply Hd.
Qed.

Lemma store_nonempty_add_to_parent label x st :
  store_nonempty st → store_nonempty (add_to_parent label x st).1.
Proof.
  intros [Hd Hh]. rewrite add_to_parent_eq.
  destruct (last (last_containers st)) as [parent|]; split; simpl; try done.
  - intros ref g els. rewrite list_lookup_alter. case_decide; [|apply Hh]. simplify_eq.
    destruct (heap st !! ref) as [g0|] eqn:Hg0; simpl; [|done].
    intros [= <-] [= <-]. apply dict_nonempty_append.
    destruct (g_elements g0) as [els0|] eqn:Hels; simpl; [by eapply Hh|].
    intros k entries Hk. by rewrite lookup_empty in Hk.
  - by apply dict_nonempty_append.
Qed.

Lemma store_nonempty_close st : store_nonempty st → store_nonempty (close_container st).
Proof. unfold close_container. by case_bool_decide. Qed.

Lemma store_nonempty_open cs m r l d st :
  store_nonempty st → store_nonempty (open_container uid (SegmentGroup cs m r l d) st).
Proof.
  intros [Hd Hh]. rewrite open_container_unfold. cbv zeta.
  set (st1 := mkStore (data st) (heap st ++ _) (last_containers st) (S (draws st))).
  assert (store_nonempty st1) as H1.
  { split; [done|]. simpl. intros ref g els Hg Hels.
    apply lookup_app_Some in Hg as [Hg | [_ Hg]]; [by eapply Hh|].
    apply list_lookup_singleton_Some in Hg as [_ <-]. done. }
  destruct (store_nonempty_add_to_parent l (NGroup (length (heap st))) st1 H1) as [Hd2 Hh2].
  by split.
Qed.

Lemma engine_step_nonempty (segments : list (list string)) idx path rep st st' res :
  engine_step uid G segments idx path rep st = (st', res) →
  store_nonempty st → store_nonempty st'.
Proof.
  destruct res as [out|idx' path' rep']; intros Hstep Hst.
  - apply engine_step_halt_cases in Hstep
      as [[-> _] | [(_&_&_&->) | (_&_&Hgrp)]].
    + done.
    + by apply store_nonempty_close.
    + destruct Hgrp as (ctag&cm&cr&cl&cd&cs&m&r&l&d&payload&_&_&_&->).
      by apply store_nonempty_open.
  - apply engine_step_continue_cases in Hstep
      as [(?&?&?&?&->&?) | [(?&?&->&?) | [(?&->&?) | [Hseg | Hgrp]]]]; try done.
    + by apply store_nonempty_close.
    + destruct Hseg as (etag&m&r&l&d&payload&_&_&_&->&_).
      rewrite with_segment_eq. by apply store_nonempty_add_to_parent.
    + destruct Hgrp as (ctag&cm&cr&cl&cd&cs&m&r&l&d&payload&_&_&_&->&_).
      by apply store_nonempty_open.
Qed.

(** ** Paths built by the engine *)

Lemma get_element_top i : get_element G [i] = inr (G !! i).
Proof.
  simpl. case_bool_decide as Hi; [|done].
  by rewrite (lookup_ge_None_2 G i).
Qed.

Lemma get_element_prefix q j e :
  q ≠ [] →
  get_element G (q ++ [j]) = inr (Some e) →
  ∃ cs m r l d, get_element G q = inr (Some (SegmentGroup cs m r l d)) ∧ cs !! j = Some e.
Proof.
  destruct q as [|i0 rest]; [done|]. intros _. simpl.
  case_bool_decide; [done|]. rewrite get_element_loop_snoc.
  destruct (get_element_loop (G !! i0) rest) as [x|[e'|]]; [done| |done].
  destruct e' as [|cs m r l d]; simpl; [done|].
  destruct (cs !! j) as [c|] eqn:Hc; [|done].
  intros [= <-]. by eexists _, _, _, _, _.
Qed.

(** Whatever [get_element] resolves to is a node of the grammar: a
    property of the top-level nodes that passes to children holds of it. *)
Lemma get_element_closed (P : element → Prop) path e :
  (∀ e0, e0 ∈ G → P e0) →
  (∀ cs m r l d i c, P (SegmentGroup cs m r l d) → cs !! i = Some c → P c) →
  get_element G path = inr (Some e) →
  P e.
Proof.
  intros Htop Hchild. revert e.
  induction path as [|i q IH] using rev_ind; intros e; [done|].
  destruct (decide (q = [])) as [->|Hq].
  - change ([] ++ [i]) with [i]. rewrite get_element_top. intros [= Hi].
    apply Htop, list_elem_of_lookup. eauto.
  - intros (cs & m & r & l & d & Hgroup & Hc)%get_element_prefix; [|done].
    eapply Hchild; [|done]. by apply IH.
Qed.

Lemma valid_cursor_resolves path :
  valid_cursor G path → path ≠ [] → ∃ e, get_element G path = inr e.
Proof.
  intros [-> | (q & i & -> & Hq)] Hne; [done|].
  destruct Hq as [-> | (cs & m & r & l & d & Hq)].
  - eexists. apply get_element_top.
  - eexists. by eapply get_element_child.
Qed.

Lemma valid_cursor_drop_last path : valid_cursor G path → valid_cursor G (drop_last path).
Proof.
  intros [-> | (q & i & -> & Hq)]; [by left|].
  rewrite drop_last_snoc.
  destruct Hq as [-> | (cs & m & r & l & d & Hq)]; [by left|].
  destruct (snoc_cases q) as [-> | (q' & j & ->)]; [by left|].
  right. exists q', j. split; [done|].
  destruct (decide (q' = [])) as [->|Hq']; [by left|]. right.
  apply get_element_prefix in Hq as (cs' & m' & r' & l' & d' & Hq & _); [|done].
  by eexists _, _, _, _, _.
Qed.

Lemma valid_cursor_incr_last path : valid_cursor G path → valid_cursor G (incr_last path).
Proof.
  intros [-> | (q & i & -> & Hq)]; [by left|].
  rewrite incr_last_snoc. right. by exists q, (i + 1).
Qed.

Lemma valid_cursor_enter path cs m r l d :
  get_element G path = inr (Some (SegmentGroup cs m r l d)) → valid_cursor G (path ++ [0]).
Proof. intros Hget. right. exists path, 0. split; [done|]. right. by eexists _, _, _, _, _. Qed.

Lemma engine_step_valid_cursor (segments : list (list string)) idx path rep st
    st' idx' path' rep' :
  valid_cursor G path →
  engine_step uid G segments idx path rep st = (st', Continue idx' path' rep') →
  valid_cursor G path'.
Proof.
  intros Hvalid Hstep.
  apply engine_step_continue_cases in Hstep
    as [(?&?&?&?&?&?&->&?) | [(?&?&?&?&->&?) | [(?&?&?&->&?) | [Hseg | Hgrp]]]].
  - done.
  - by apply valid_cursor_incr_last.
  - by apply valid_cursor_drop_last.
  - destruct Hseg as (etag&m&r&l&d&payload&_&_&_&_&_&[-> | ->]); [done|].
    by apply valid_cursor_incr_last.
  - destruct Hgrp as (ctag&cm&cr&cl&cd&cs&m&r&l&d&payload&Hget&_&_&_&_&->&_).
    by eapply valid_cursor_enter.
Qed.

Lemma engine_step_cursor_matches (segments : list (list string)) idx path rep st
    st' idx' path' rep' :
  cursor_matches_containers path st →
  engine_step uid G segments idx path rep st = (st', Continue idx' path' rep') →
  cursor_matches_containers path' st'.
Proof.
  unfold cursor_matches_containers. intros Hm Hstep.
  apply engine_step_continue_cases in Hstep
    as [(?&?&?&?&->&?&->&?) | [(e&Hget&->&?&->&?) | [(Hne&->&?&->&?) | [Hseg | Hgrp]]]].
  - done.
  - apply get_element_nonempty in Hget. destruct Hm as [->|Hm]; [done|].
    right. by rewrite length_incr_last.
  - destruct Hm as [->|Hm]; [done|].
    unfold close_container. case_bool_decide as Hlc; simpl.
    + right. rewrite !length_drop_last. lia.
    + left. apply length_zero_iff_nil. rewrite length_drop_last. lia.
  - destruct Hseg as (etag&m&r&l&d&payload&Hget&_&_&->&_&Hpath).
    apply get_element_nonempty in Hget. destruct Hm as [->|Hm]; [done|].
    right. rewrite with_segment_eq, add_to_parent_containers.
    destruct Hpath as [-> | ->]; [done|]. by rewrite length_incr_last.
  - destruct Hgrp as (ctag&cm&cr&cl&cd&cs&m&r&l&d&payload&Hget&_&_&->&_&->&_).
    apply get_element_nonempty in Hget. destruct Hm as [->|Hm]; [done|].
    right. rewrite open_container_unfold. cbv zeta. simpl.
    rewrite add_to_parent_containers, !length_app. simpl. lia.
Qed.

(** ** Nodes of a grammar *)

Lemma well_formed_child cs m r l d i c :
  well_formed (SegmentGroup cs m r l d) = true → cs !! i = Some c → well_formed c = true.
Proof.
  simpl. intros [_ Hall]%andb_prop. revert i.
  induction cs as [|c0 cs IH]; intros [|i] Hc; simplify_eq/=;
    apply andb_prop in Hall as [H0 Hall]; [done|by eapply IH].
Qed.

Lemma well_formed_first cs m r l d :
  well_formed (SegmentGroup cs m r l d) = true →
  ∃ ctag cm cr cl cd cs', cs = PlaceholderSegment ctag cm cr cl cd :: cs'.
Proof.
  simpl. intros [Hfirst _]%andb_prop.
  destruct cs as [|[ctag cm cr cl cd|] cs']; try done. by eexists _, _, _, _, _, _.
Qed.

Lemma forallb_elem_of {A} (f : A → bool) (l : list A) x :
  forallb f l = true → x ∈ l → f x = true.
Proof.
  induction l as [|a l IH]; simpl; intros Hall Hin; [by apply elem_of_nil in Hin|].
  apply andb_prop in Hall as [Ha Hall].
  apply elem_of_cons in Hin as [-> | Hin]; [done|by apply IH].
Qed.

Lemma get_element_well_formed path e :
  well_formed_grammar G = true → get_element G path = inr (Some e) → well_formed e = true.
Proof.
  intros HG. apply (get_element_closed (λ e, well_formed e = true)).
  - intros e0. by apply forallb_elem_of.
  - intros cs m r l d i c. apply well_formed_child.
Qed.

Lemma labelled_child cs m r l d i c :
  labelled (SegmentGroup cs m r l d) = true → cs !! i = Some c → labelled c = true.
Proof.
  simpl. intros [_ Hall]%andb_prop. revert i.
  induction cs as [|c0 cs IH]; intros [|i] Hc; simplify_eq/=;
    apply andb_prop in Hall as [H0 Hall]; [done|by eapply IH].
Qed.

Lemma get_element_labelled path cs m r l d :
  labelled_grammar G = true →
  get_element G path = inr (Some (SegmentGroup cs m r l d)) →
  is_Some l.
Proof.
  intros HG Hget.
  apply (get_element_closed (λ e, labelled e = true)) in Hget.
  - simpl in Hget. apply andb_prop in Hget as [Hl _]. by apply bool_decide_eq_true in Hl.
  - intros e0. by apply forallb_elem_of.
  - intros cs' m' r' l' d' i c. apply labelled_child.
Qed.

(** With labels on all groups of the grammar the listing of the open
    groups never fails, and a step keeps it that way. *)
Lemma engine_step_joinable (segments : list (list string)) idx path rep st st' res :
  labelled_grammar G = true →
  labels_joinable st = true →
  engine_step uid G segments idx path rep st = (st', res) →
  labels_joinable st' = true.
Proof.
  intros HG Hjoin Hstep.
  assert (∀ cs m r l d,
            get_element G path = inr (Some (SegmentGroup cs m r l d)) →
            labels_joinable (open_container uid (SegmentGroup cs m r l d) st) = true)
    as Hopen.
  { intros cs m r l d Hget. rewrite labels_joinable_open by done.
    apply bool_decide_eq_true. by eapply get_element_labelled. }
  destruct res as [out|idx' path' rep'].
  - apply engine_step_halt_cases in Hstep as [[-> _] | [(_&_&_&->) | (_&_&Hgrp)]].
    + done.
    + by apply labels_joinable_close.
    + destruct Hgrp as (ctag&cm&cr&cl&cd&cs&m&r&l&d&payload&Hget&_&_&->).
      by apply Hopen.
  - apply engine_step_continue_cases in Hstep
      as [(?&?&?&?&->&?) | [(?&?&->&?) | [(?&->&?) | [Hseg | Hgrp]]]]; try done.
    + by apply labels_joinable_close.
    + destruct Hseg as (etag&m&r&l&d&payload&_&_&_&->&_).
      by rewrite labels_joinable_with_segment.
    + destruct Hgrp as (ctag&cm&cr&cl&cd&cs&m&r&l&d&payload&Hget&_&_&->&_).
      by apply Hopen.
Qed.

Lemma mandatory_tags_child cs m r l d i c t :
  cs !! i = Some c → t ∈ mandatory_tags c → t ∈ mandatory_tags (SegmentGroup cs m r l d).
Proof.
  simpl. revert i. induction cs as [|c0 cs IH]; intros [|i] Hc Ht; simplify_eq/=.
  - apply elem_of_app. by left.
  - apply elem_of_app. right. by eapply IH.
Qed.

Lemma get_element_mandatory_tag path etag r l d :
  get_element G path = inr (Some (PlaceholderSegment etag true r l d)) →
  etag ∈ grammar_mandatory_tags G.
Proof.
  intros Hget.
  apply (get_element_closed (λ e, ∀ t, t ∈ mandatory_tags e → t ∈ grammar_mandatory_tags G))
    with (t := etag) in Hget; [done| | |simpl; set_solver].
  - intros e0 [i Hi]%list_elem_of_lookup t Ht.
    by apply (mandatory_tags_child G true 1 None None i e0).
  - intros cs m r' l' d' i c Hgroup Hc t Ht. apply Hgroup.
    by eapply mandatory_tags_child.
Qed.

(** ** Keys of [Message.data] *)

Lemma dom_dict_append (d : gmap (option string) (list node)) label x :
  dom (dict_append d label x) = {[label]} ∪ dom d.
Proof. unfold dict_append. apply dom_insert_L. Qed.

Lemma element_key_top i e : G !! i = Some e → element_key e ∈ top_keys G.
Proof.
  intros Hi. unfold top_keys. apply elem_of_list_to_set, list_elem_of_fmap.
  exists e. split; [done|]. apply list_elem_of_lookup. eauto.
Qed.

Lemma engine_step_data_keys (segments : list (list string)) idx path rep st st' res :
  cursor_matches_containers path st →
  engine_step uid G segments idx path rep st = (st', res) →
  dom (data st') ⊆ dom (data st) ∪ top_keys G.
Proof.
  unfold cursor_matches_containers. intros Hm Hstep.
  assert (∀ e, get_element G path = inr (Some e) → last (last_containers st) = None →
               element_key e ∈ top_keys G) as Htop.
  { intros e Hget Hlast. apply last_None in Hlast. rewrite Hlast in Hm.
    destruct Hm as [->|Hm]; [done|]. destruct path as [|i [|]]; try done.
    rewrite get_element_top in Hget. injection Hget as Hi. by eapply element_key_top. }
  assert (dom (data (close_container st)) ⊆ dom (data st) ∪ top_keys G) as Hclose.
  { unfold close_container. case_bool_decide; apply union_subseteq_l. }
  assert (∀ cs m r l d,
            get_element G path = inr (Some (SegmentGroup cs m r l d)) →
            dom (data (open_container uid (SegmentGroup cs m r l d) st))
            ⊆ dom (data st) ∪ top_keys G) as Hopen.
  { intros cs m r l d Hget.
    rewrite open_container_unfold. cbv zeta. cbn [data]. rewrite add_to_parent_eq.
    cbn [last_containers].
    destruct (last (last_containers st)) as [parent|] eqn:Hlast; simpl;
      [apply union_subseteq_l|].
    specialize (Htop _ Hget eq_refl). simpl in Htop.
    rewrite dom_dict_append. apply union_least; [|apply union_subseteq_l].
    apply singleton_subseteq_l, elem_of_union. by right. }
  destruct res as [out|idx' path' rep'].
  { apply engine_step_halt_cases in Hstep as [[-> _] | [(_&_&_&->) | (_&_&Hgrp)]].
    - apply union_subseteq_l.
    - done.
    - destruct Hgrp as (ctag&cm&cr&cl&cd&cs&m&r&l&d&payload&Hget&_&_&->).
      by apply Hopen. }
  apply engine_step_continue_cases in Hstep
    as [(?&?&?&?&->&?) | [(?&?&->&?) | [(?&->&?) | [Hseg | Hgrp]]]];
    try apply union_subseteq_l.
  - done.
  - destruct Hseg as (etag&m&r&l&d&payload&Hget&_&_&->&_).
    rewrite with_segment_eq, add_to_parent_eq.
    destruct (last (last_containers st)) as [parent|] eqn:Hlast; simpl;
      [apply union_subseteq_l|].
    specialize (Htop _ Hget eq_refl). simpl in Htop.
    rewrite dom_dict_append. apply union_least; [|apply union_subseteq_l].
    apply singleton_subseteq_l, elem_of_union. by right.
  - destruct Hgrp as (ctag&cm&cr&cl&cd&cs&m&r&l&d&payload&Hget&_&_&->&_).
    by apply Hopen.
Qed.

(** ** Envelope segments *)

Lemma strip_envelope_cons seg l :
  strip_envelope (seg :: l)
  = if is_envelope seg then strip_envelope l else seg :: strip_envelope l.
Proof.
  unfold strip_envelope. rewrite filter_cons.
  destruct (is_envelope seg); by case_decide.
Qed.

Lemma strip_envelope_idemp l : strip_envelope (strip_envelope l) = strip_envelope l.
Proof.
  induction l as [|seg l IH]; [done|]. rewrite strip_envelope_cons.
  destruct (is_envelope seg) eqn:Hseg; [done|].
  by rewrite strip_envelope_cons, Hseg, IH.
Qed.

Lemma is_envelope_inv seg :
  is_envelope seg = true → ∃ tag payload, seg = tag :: payload ∧ tag ∈ segments_to_ignore.
Proof.
  destruct seg as [|tag payload]; [done|]. simpl. intros ?%bool_decide_eq_true. eauto.
Qed.

(** Past nothing but envelope segments the engine returns. *)
Lemma process_segments_only_envelopes (segments : list (list string)) path rep st :
  ∀ n idx,
    length segments - idx = n →
    strip_envelope (drop idx segments) = [] →
    ∀ k, process_segments uid G (S n + k) segments idx path rep st = Some (st, inr tt).
Proof.
  induction n as [|n IH]; intros idx Hn Hstrip k.
  { apply process_segments_halt. left. lia. }
  destruct (decide (path = [])) as [->|Hpath].
  { apply process_segments_halt. by right. }
  destruct (lookup_lt_is_Some_2 segments idx) as [seg Hseg]; [lia|].
  rewrite (drop_S _ _ _ Hseg), strip_envelope_cons in Hstrip.
  destruct (is_envelope seg) eqn:Henv; [|done].
  apply is_envelope_inv in Henv as (tag & payload & -> & Hign).
  change (S (S n) + k) with (S (S n + k)).
  rewrite (process_segments_ignore uid G _ segments idx path rep st tag payload Hseg Hign Hpath).
  apply IH; [lia|]. by rewrite Nat.add_1_r.
Qed.

(** Up to the first segment that is not skipped. *)
Lemma process_segments_skip_envelopes (segments : list (list string)) path rep st seg rest :
  path ≠ [] →
  ∀ n idx,
    length segments - idx = n →
    strip_envelope (drop idx segments) = seg :: rest →
    ∃ j, idx ≤ j ∧ segments !! j = Some seg ∧ is_envelope seg = false
         ∧ strip_envelope (drop (S j) segments) = rest
         ∧ ∀ fuel, process_segments uid G (j - idx + fuel) segments idx path rep st
                   = process_segments uid G fuel segments j path rep st.
Proof.
  intros Hpath. induction n as [|n IH]; intros idx Hn Hstrip.
  { rewrite drop_ge in Hstrip by lia. done. }
  destruct (lookup_lt_is_Some_2 segments idx) as [seg0 Hseg]; [lia|].
  rewrite (drop_S _ _ _ Hseg), strip_envelope_cons in Hstrip.
  destruct (is_envelope seg0) eqn:Henv.
  - destruct (IH (S idx)) as (j & Hle & Hj & Hne & Hrest & Hrun); [lia|done|].
    exists j. split_and!; [lia|done..|]. intros fuel.
    apply is_envelope_inv in Henv as (tag & payload & -> & Hign).
    replace (j - idx + fuel) with (S (j - S idx + fuel)) by lia.
    by rewrite (process_segments_ignore uid G _ segments idx path rep st tag payload
                  Hseg Hign Hpath), Nat.add_1_r.
  - injection Hstrip as -> <-. exists idx. split_and!; [done..|].
    intros fuel. by rewrite Nat.sub_diag.
Qed.

Lemma process_end_local idx idx' path rep st :
  process_end idx' path rep st
  = match process_end idx path rep st with
    | (s, inr (i, p, r)) => (s, inr (i - idx + idx', p, r))
    | (s, inl x) => (s, inl x)
    end.
Proof.
  rewrite !process_end_eq. destruct (labels_joinable (close_container st)); [|done].
  cbv beta iota. replace (idx - idx + idx') with idx' by lia. done.
Qed.

(** A step looks at no segment but the current one. *)
Lemma engine_step_local (segments segments' : list (list string)) idx idx' path rep st seg :
  segments !! idx = Some seg →
  segments' !! idx' = Some seg →
  engine_step uid G segments' idx' path rep st
  = match engine_step uid G segments idx path rep st with
    | (s, Halt out) => (s, Halt out)
    | (s, Continue i p r) => (s, Continue (i - idx + idx') p r)
    end.
Proof.
  intros Hseg Hseg'.
  pose proof (lookup_lt_Some _ _ _ Hseg) as Hlt.
  pose proof (lookup_lt_Some _ _ _ Hseg') as Hlt'.
  unfold engine_step.
  rewrite !(bool_decide_eq_false_2 (length _ ≤ _)) by lia.
  destruct (bool_decide (length path < 1)); [done|]. simpl.
  unfold process_segment, process_group, bind, lift, tag_at, segment_at.
  rewrite Hseg, Hseg'. destruct seg as [|tag payload]; [done|].
  case_bool_decide.
  { do 2 f_equal. lia. }
  destruct (get_element G path) as [x|[[etag m r l d|cs m r l d]|]]; simpl; try done.
  - case_bool_decide; simpl.
    + destruct (add_to_parent _ _ st) as [s' [x|[]]]; simpl; [done|].
      unfold ret. case_bool_decide; simpl; do 2 f_equal; lia.
    + destruct (m && bool_decide (rep = 0)); simpl; [done|]. do 2 f_equal. lia.
  - case_bool_decide; simpl.
    { rewrite (process_end_local idx idx').
      by destruct (process_end idx path rep st) as [s' [x|[[i p] q]]]. }
    destruct (group_starts_with_segment (SegmentGroup cs m r l d) tag) as [x|[]]; simpl;
      [done| |].
    + destruct (add_group uid (SegmentGroup cs m r l d) (rep + 1) st) as [s' [x|ref]]; simpl;
        [done|].
      unfold join_labels. destruct (labels_joinable _); simpl; [|done].
      do 2 f_equal. lia.
    + destruct (m && bool_decide (rep + 1 = 0)); simpl.
      * destruct (cs !! 0) as [[]|]; simpl; done.
      * do 2 f_equal. lia.
  - rewrite (process_end_local idx idx').
    by destruct (process_end idx path rep st) as [s' [x|[[i p] q]]].
Qed.

(** Two inputs that agree once the envelope segments are removed lead to
    the same outcome. *)
Lemma process_segments_strip (segments segments' : list (list string)) fuel :
  ∀ idx idx' path rep st r,
    process_segments uid G fuel segments idx path rep st = Some r →
    strip_envelope (drop idx' segments') = strip_envelope (drop idx segments) →
    ∃ fuel', process_segments uid G fuel' segments' idx' path rep st = Some r.
Proof.
  induction fuel as [|fuel IH]; intros idx idx' path rep st r Hrun Hstrip; [done|].
  destruct (decide (path = [])) as [->|Hpath].
  { rewrite process_segments_halt in Hrun by (by right). exists 1.
    rewrite process_segments_halt by (by right). done. }
  destruct (decide (length segments ≤ idx)) as [Hlen|Hlen].
  { rewrite process_segments_halt in Hrun by (by left).
    rewrite (drop_ge segments) in Hstrip by done.
    exists (S (length segments' - idx') + 0).
    by rewrite (process_segments_only_envelopes segments' path rep st _ idx' eq_refl Hstrip). }
  destruct (lookup_lt_is_Some_2 segments idx) as [seg Hseg]; [lia|].
  rewrite (drop_S _ _ _ Hseg), strip_envelope_cons in Hstrip.
  destruct (is_envelope seg) eqn:Henv.
  { apply is_envelope_inv in Henv as (tag & payload & -> & Hign).
    rewrite (process_segments_ignore uid G _ segments idx path rep st tag payload
               Hseg Hign Hpath) in Hrun.
    apply (IH _ idx' _ _ _ _ Hrun). by rewrite Nat.add_1_r. }
  destruct (process_segments_skip_envelopes segments' path rep st seg _ Hpath _ idx'
              eq_refl Hstrip) as (j & _ & Hj & _ & Hrest & Hskip).
  rewrite process_segments_unfold in Hrun.
  pose proof (engine_step_local segments segments' idx j path rep st seg Hseg Hj) as Hlocal.
  destruct (engine_step uid G segments idx path rep st) as [s1 [out|i p q]] eqn:Hstep.
  - exists (j - idx' + 1). rewrite Hskip, process_segments_unfold, Hlocal. done.
  - assert (i = idx ∨ i = idx + 1) as Hi.
    { apply engine_step_continue_cases in Hstep
        as [(?&?&?&?&?&->&?) | [(?&?&?&->&?) | [(?&?&->&?) | [Hs | Hg]]]]; eauto.
      - destruct Hs as (?&?&?&?&?&?&?&?&?&?&->&?). eauto.
      - destruct Hg as (?&?&?&?&?&?&?&?&?&?&?&?&?&?&?&->&?). eauto. }
    destruct (IH i (i - idx + j) p q s1 r Hrun) as [fuel' Hrun'].
    { destruct Hi as [-> | ->].
      - rewrite Nat.sub_diag. simpl.
        by rewrite (drop_S _ _ _ Hseg), (drop_S _ _ _ Hj), !strip_envelope_cons, Henv, Hrest.
      - replace (idx + 1 - idx + j) with (S j) by lia. by rewrite Hrest, Nat.add_1_r. }
    exists (j - idx' + S fuel'). by rewrite Hskip, process_segments_unfold, Hlocal.
Qed.

(** ** Open groups are allocated *)

Lemma elem_of_drop_last {A} (x : A) (l : list A) : x ∈ drop_last l → x ∈ l.
Proof.
  destruct (snoc_cases l) as [-> | (q & y & ->)]; [done|].
  rewrite drop_last_snoc. intros Hx. apply elem_of_app. by left.
Qed.

Lemma containers_allocated_add_to_parent label x st :
  containers_allocated st → containers_allocated (add_to_parent label x st).1.
Proof.
  unfold containers_allocated. rewrite add_to_parent_eq.
  destruct (last (last_containers st)); simpl; [|done].
  intros Halloc ref Hin. rewrite length_alter. by apply Halloc.
Qed.

Lemma containers_allocated_close st :
  containers_allocated st → containers_allocated (close_container st).
Proof.
  intros Hst. unfold close_container. case_bool_decide; [|done].
  intros ref Hin. simpl in *. by apply Hst, elem_of_drop_last.
Qed.

Lemma containers_allocated_open cs m r l d st :
  containers_allocated st →
  containers_allocated (open_container uid (SegmentGroup cs m r l d) st).
Proof.
  intros Hst. rewrite open_container_unfold. cbv zeta.
  set (st1 := mkStore (data st) (heap st ++ _) (last_containers st) (S (draws st))).
  assert (containers_allocated st1) as H1.
  { intros ref Hin. simpl in *. rewrite length_app. specialize (Hst _ Hin). lia. }
  pose proof (containers_allocated_add_to_parent l (NGroup (length (heap st))) st1 H1)
    as H2.
  assert (length (heap st) < length (heap (add_to_parent l (NGroup (length (heap st))) st1).1))
    as Hnew.
  { rewrite add_to_parent_eq. destruct (last (last_containers st1)); simpl;
      rewrite ?length_alter, length_app; simpl; lia. }
  intros ref Hin. simpl in Hin. apply elem_of_app in Hin as [Hin | Hin].
  - by apply H2.
  - apply list_elem_of_singleton in Hin as ->. done.
Qed.

Lemma engine_step_containers_allocated (segments : list (list string)) idx path rep st st' res :
  engine_step uid G segments idx path rep st = (st', res) →
  containers_allocated st → containers_allocated st'.
Proof.
  destruct res as [out|idx' path' rep']; intros Hstep Hst.
  - apply engine_step_halt_cases in Hstep as [[-> _] | [(_&_&_&->) | (_&_&Hgrp)]].
    + done.
    + by apply containers_allocated_close.
    + destruct Hgrp as (ctag&cm&cr&cl&cd&cs&m&r&l&d&payload&_&_&_&->).
      by apply containers_allocated_open.
  - apply engine_step_continue_cases in Hstep
      as [(?&?&?&?&->&?) | [(?&?&->&?) | [(?&->&?) | [Hseg | Hgrp]]]]; try done.
    + by apply containers_allocated_close.
    + destruct Hseg as (etag&m&r&l&d&payload&_&_&_&->&_).
      rewrite with_segment_eq. by apply containers_allocated_add_to_parent.
    + destruct Hgrp as (ctag&cm&cr&cl&cd&cs&m&r&l&d&payload&_&_&_&->&_).
      by apply containers_allocated_open.
Qed.

(** ** Properties of whole runs *)

(** X1. The segments of [segments_to_ignore] are transparent: with and
    without them in the input the engine returns the same store and the
    same outcome. *)
Theorem envelope_segments_are_transparent (segments : list (list string)) path rep st r :
  (∃ fuel, process_segments uid G fuel segments 0 path rep st = Some r)
  ↔ (∃ fuel, process_segments uid G fuel (strip_envelope segments) 0 path rep st = Some r).
Proof.
  split; intros [fuel Hrun].
  - eapply process_segments_strip; [exact Hrun|].
    by rewrite !drop_0, strip_envelope_idemp.
  - eapply process_segments_strip; [exact Hrun|].
    by rewrite !drop_0, strip_envelope_idemp.
Qed.

(** X2. An input made of envelope segments only is accepted whatever the
    grammar demands: the engine returns normally and leaves the store
    untouched, also when mandatory nodes have not been matched. *)
Theorem envelope_only_input_is_accepted (segments : list (list string)) idx path rep st :
  forallb is_envelope segments = true →
  ∀ k, process_segments uid G (S (length segments - idx) + k) segments idx path rep st
       = Some (st, inr tt).
Proof.
  intros Hall. apply process_segments_only_envelopes; [done|].
  assert (∀ l : list (list string), forallb is_envelope l = true → strip_envelope l = [])
    as Hstrip.
  { induction l as [|seg l IH]; [done|]. simpl. intros [Hseg Hl]%andb_prop.
    rewrite strip_envelope_cons, Hseg. by apply IH. }
  apply Hstrip. clear Hstrip. revert idx.
  induction segments as [|seg l IH]; intros [|idx]; simpl in *; try done.
  apply andb_prop in Hall as [_ Hl]. by apply IH.
Qed.

Lemma process_segments_within (segments : list (list string)) n :
  ∀ idx path rep st,
    engine_measure G segments idx path ≤ n →
    ∃ r, process_segments uid G (2 * n + 1) segments idx path rep st = Some r.
Proof.
  induction n as [n IH] using lt_wf_ind. intros idx path rep st Hn.
  replace (2 * n + 1) with (S (2 * n)) by lia. rewrite process_segments_unfold.
  destruct (engine_step uid G segments idx path rep st) as [st' [out|idx' path' rep']] eqn:Hstep.
  { eauto. }
  destruct (engine_step_progress _ _ _ _ _ _ _ _ _ _ _ Hstep)
    as [Hlt [(-> & Hw) | [(-> & _ & Hw) | (-> & -> & st'' & path'' & rep'' & Hstep' & Hw)]]].
  - pose proof (engine_measure_consumed G segments idx path path' Hlt) as Hm.
    destruct (IH (n - 1)) with (idx := idx + 1) (path := path') (rep := rep') (st := st')
      as [r Hrun]; [lia..|].
    exists r. replace (2 * n) with (2 * (n - 1) + 1 + 1) by lia.
    by apply process_segments_more_fuel.
  - destruct (IH (n - 1)) with (idx := idx) (path := path') (rep := rep') (st := st')
      as [r Hrun]; [unfold engine_measure in *; lia..|].
    exists r. replace (2 * n) with (2 * (n - 1) + 1 + 1) by (unfold engine_measure in *; lia).
    by apply process_segments_more_fuel.
  - pose proof (engine_measure_consumed G segments idx path path'' Hlt Hw) as Hm.
    destruct (IH (n - 1)) with (idx := idx + 1) (path := path'') (rep := rep'') (st := st'')
      as [r Hrun]; [lia..|].
    exists r. replace (2 * n) with (S (2 * (n - 1) + 1)) by lia.
    by rewrite process_segments_unfold, Hstep'.
Qed.

(** X3. The number of nested calls of [process_segments] is bounded by
    twice the measure of the start position plus one; from the initial
    cursor that is [2 * (n * (w + 2) + w + 1) + 1] for [n] segments and a
    grammar of width [w]. *)
Theorem nested_calls_bound (segments : list (list string)) idx path rep st :
  (∃ r, ∀ k,
     process_segments uid G (2 * engine_measure G segments idx path + 1 + k)
       segments idx path rep st = Some r)
  ∧ engine_measure G segments 0 [0]
    = length segments * (grammar_width G + 2) + grammar_width G + 1.
Proof.
  split.
  - destruct (process_segments_within segments _ idx path rep st (le_n _)) as [r Hrun].
    exists r. intros k. by apply process_segments_more_fuel.
  - unfold engine_measure, path_weight. simpl. lia.
Qed.

(** The exceptions a run can end with. *)
Lemma process_segments_raises (segments : list (list string)) fuel idx path rep st st' x :
  process_segments uid G fuel segments idx path rep st = Some (st', inl x) →
  (∃ t, x = MissingSegmentAtPositionError t ∧ t ∈ grammar_mandatory_tags G)
  ∨ python_error x
  ∨ (x = TypeError ∧ labels_joinable st' = false).
Proof.
  intros Hrun.
  apply (process_segments_invariant segments (λ _ _, True)
           (λ s out, ∀ x, out = inl x →
              (∃ t, x = MissingSegmentAtPositionError t ∧ t ∈ grammar_mandatory_tags G)
              ∨ python_error x
              ∨ (x = TypeError ∧ labels_joinable s = false)))
    with (x := x) in Hrun; [done| | |done..].
  - intros idx0 path0 rep0 st0 st1 out _ Hstep y ->.
    apply engine_step_halt_cases in Hstep
      as [[_ [[? _] | [[[= ->] _] | [(z&[= ->]&_&Hget) | [Hgrp | Hseg]]]]]
         | [([= ->]&Hjoin&_) | ([= ->]&Hjoin&_)]];
      [done|..].
    + right; left. by left.
    + right; left. by eapply get_element_error.
    + destruct Hgrp as (z&tag&payload&cs&m&r&l&d&[= ->]&_&_&Hstarts).
      right; left. by eapply group_starts_with_segment_error.
    + destruct Hseg as (tag&payload&etag&r&l&d&[= ->]&_&_&Hget).
      left. exists etag. split; [done|]. by eapply get_element_mandatory_tag.
    + right; right. done.
    + right; right. done.
  - done.
Qed.

Lemma process_segments_raises_well_formed (segments : list (list string)) fuel
    idx path rep st st' x :
  well_formed_grammar G = true →
  labelled_grammar G = true →
  tokenized segments = true →
  valid_cursor G path →
  labels_joinable st = true →
  process_segments uid G fuel segments idx path rep st = Some (st', inl x) →
  ∃ t, x = MissingSegmentAtPositionError t ∧ t ∈ grammar_mandatory_tags G.
Proof.
  intros HG HL Htok Hvalid Hjoin Hrun.
  apply (process_segments_invariant segments
           (λ path s, valid_cursor G path ∧ labels_joinable s = true)
           (λ _ out, ∀ x, out = inl x →
              ∃ t, x = MissingSegmentAtPositionError t ∧ t ∈ grammar_mandatory_tags G))
    with (x := x) in Hrun; [done| | |done..].
  - intros idx0 path0 rep0 st0 st1 out [Hv Hj] Hstep y ->.
    pose proof (engine_step_joinable _ _ _ _ _ _ _ HL Hj Hstep) as Hj1.
    apply engine_step_halt_cases in Hstep
      as [[_ [[? _] | [[_ Hseg] | [(z&[= ->]&Hne&Hget) | [Hgrp | Hseg]]]]]
         | [(_&Hno&_) | (_&Hno&_)]];
      [done|..]; try congruence.
    + apply list_elem_of_lookup_2 in Hseg.
      by apply (forallb_elem_of _ _ _ Htok) in Hseg.
    + destruct (valid_cursor_resolves _ Hv Hne) as [e He]. congruence.
    + destruct Hgrp as (z&tag&payload&cs&m&r&l&d&[= ->]&_&Hget&Hstarts).
      apply get_element_well_formed in Hget; [|done].
      apply well_formed_first in Hget as (ctag&cm&cr&cl&cd&cs'&->). done.
    + destruct Hseg as (tag&payload&etag&r&l&d&[= ->]&_&_&Hget).
      exists etag. split; [done|]. by eapply get_element_mandatory_tag.
  - intros idx0 path0 rep0 st0 st1 idx1 path1 rep1 [Hv Hj] Hstep. split.
    + by eapply engine_step_valid_cursor.
    + by eapply engine_step_joinable.
Qed.

(** X4. Whatever the grammar, the input and the start position, a run
    raises nothing but [MissingSegmentAtPositionError] with the tag of a
    mandatory segment node of the grammar, [IndexError], [AttributeError]
    or [TypeError].  A [TypeError] comes from the listing of the open
    groups and from nowhere else: the store it leaves behind has an open
    group without label (or one that is not allocated); the constructor
    calls of [add_group] and [add_segment] never fail. *)
Theorem raised_exceptions (segments : list (list string)) fuel idx path rep st st' x :
  process_segments uid G fuel segments idx path rep st = Some (st', inl x) →
  match x with
  | MissingSegmentAtPositionError t => t ∈ grammar_mandatory_tags G
  | IndexError | AttributeError => True
  | TypeError => labels_joinable st' = false
  end.
Proof.
  intros [(t & -> & Ht) | [[-> | ->] | [-> Hjoin]]]%process_segments_raises; done.
Qed.

(** X5. When every group of the grammar starts with a segment and has a
    label, every input segment has a tag, the path is one the engine
    builds and the groups that are open have labels, the only exception a
    run can raise is [MissingSegmentAtPositionError], and its tag is that
    of a mandatory segment node of the grammar. *)
Theorem well_formed_run_raises_only_missing_segment (segments : list (list string)) fuel
    idx path rep st st' x :
  well_formed_grammar G = true →
  labelled_grammar G = true →
  tokenized segments = true →
  valid_cursor G path →
  labels_joinable st = true →
  process_segments uid G fuel segments idx path rep st = Some (st', inl x) →
  ∃ t, x = MissingSegmentAtPositionError t ∧ t ∈ grammar_mandatory_tags G.
Proof. apply process_segments_raises_well_formed. Qed.

(** X6. A grammar without mandatory segment in which every group starts
    with a segment and has a label rejects no message: on tokenized
    input, from a store whose open groups have labels, the engine
    returns, and it returns normally. *)
Theorem optional_grammar_never_raises (segments : list (list string)) idx path rep st :
  well_formed_grammar G = true →
  labelled_grammar G = true →
  grammar_mandatory_tags G = [] →
  tokenized segments = true →
  valid_cursor G path →
  labels_joinable st = true →
  (∃ fuel st', ∀ k,
     process_segments uid G (fuel + k) segments idx path rep st = Some (st', inr tt))
  ∧ ∀ fuel st' out,
      process_segments uid G fuel segments idx path rep st = Some (st', out) → out = inr tt.
Proof.
  intros HG HL Hopt Htok Hvalid Hjoin.
  assert (∀ fuel st' out,
            process_segments uid G fuel segments idx path rep st = Some (st', out) →
            out = inr tt) as Hok.
  { intros fuel st' out Hrun. destruct out as [x|[]]; [|done].
    destruct (process_segments_raises_well_formed _ _ _ _ _ _ _ _ HG HL Htok Hvalid Hjoin Hrun)
      as (t & _ & Ht).
    rewrite Hopt in Ht. by apply elem_of_nil in Ht. }
  split; [|done].
  destruct (process_segments_terminates_below uid G segments _ idx path rep st (le_n _))
    as (fuel & [st' out] & Hrun).
  exists fuel, st'. intros k. rewrite Hrun. by rewrite (Hok _ _ _ (Hrun 0)).
Qed.

(** X7. A run only ever extends the results: every list of
    [Message.data] and of every [Group] that existed before the run is a
    prefix of the list after it, no [Group] object disappears or changes
    its attributes; this also holds when the run raises. *)
Theorem results_only_grow (segments : list (list string)) fuel idx path rep st st' out :
  process_segments uid G fuel segments idx path rep st = Some (st', out) →
  store_extends st st'.
Proof.
  apply (process_segments_invariant segments (λ _ s, store_extends st s)
           (λ s _, store_extends st s)); [| |apply store_extends_refl].
  - intros idx0 path0 rep0 st0 st1 out0 Hs Hstep.
    eapply store_extends_trans; [done|]. by eapply engine_step_extends.
  - intros idx0 path0 rep0 st0 st1 idx1 path1 rep1 Hs Hstep.
    eapply store_extends_trans; [done|]. by eapply engine_step_extends.
Qed.

(** X8. No key is ever bound to an empty list: if that holds before a
    run it holds after it, so [Message.__getitem__] either raises
    [KeyError] or returns a non-empty list. *)
Theorem no_empty_result_list (segments : list (list string)) fuel idx path rep st st' out :
  store_nonempty st →
  process_segments uid G fuel segments idx path rep st = Some (st', out) →
  store_nonempty st'
  ∧ ∀ key entries, Message_getitem st' key = inr entries → entries ≠ [].
Proof.
  intros Hst Hrun.
  assert (store_nonempty st') as Hst'.
  { revert Hrun.
    apply (process_segments_invariant segments (λ _ s, store_nonempty s)
             (λ s _, store_nonempty s)); [| |done].
    - intros idx0 path0 rep0 st0 st1 out0 Hs Hstep. by eapply engine_step_nonempty.
    - intros idx0 path0 rep0 st0 st1 idx1 path1 rep1 Hs Hstep. by eapply engine_step_nonempty. }
  split; [done|]. intros key entries. unfold Message_getitem.
  destruct (data st' !! key) as [l|] eqn:Hkey; [|done].
  intros [= <-]. by eapply (proj1 Hst').
Qed.

(** X9. After a run that starts with one open group per level below the
    top, [Message.data] has no keys but those it had and the keys of the
    top-level grammar nodes (the label, or the tag of a segment without
    label): for every other key [Message.__getitem__] raises [KeyError]. *)
Theorem data_keys_are_top_level_keys (segments : list (list string)) fuel idx path rep st
    st' out key :
  cursor_matches_containers path st →
  key ∉ dom (data st) ∪ top_keys G →
  process_segments uid G fuel segments idx path rep st = Some (st', out) →
  Message_getitem st' key = inl (KeyError key).
Proof.
  intros Hm Hkey Hrun.
  assert (dom (data st') ⊆ dom (data st) ∪ top_keys G) as Hdom.
  { revert Hrun.
    apply (process_segments_invariant segments
             (λ p s, cursor_matches_containers p s ∧ dom (data s) ⊆ dom (data st) ∪ top_keys G)
             (λ s _, dom (data s) ⊆ dom (data st) ∪ top_keys G)).
    - intros idx0 path0 rep0 st0 st1 out0 [Hc Hs] Hstep.
      pose proof (engine_step_data_keys _ _ _ _ _ _ _ Hc Hstep) as Hstep'.
      intros k Hk. apply Hstep', elem_of_union in Hk as [Hk | Hk]; [by apply Hs|].
      apply elem_of_union. by right.
    - intros idx0 path0 rep0 st0 st1 idx1 path1 rep1 [Hc Hs] Hstep. split.
      + by eapply engine_step_cursor_matches.
      + pose proof (engine_step_data_keys _ _ _ _ _ _ _ Hc Hstep) as Hstep'.
        intros k Hk. apply Hstep', elem_of_union in Hk as [Hk | Hk]; [by apply Hs|].
        apply elem_of_union. by right.
    - split; [done|]. apply union_subseteq_l. }
  unfold Message_getitem. destruct (data st' !! key) as [l|] eqn:Hl; [|done].
  exfalso. apply Hkey, Hdom, elem_of_dom. eauto.
Qed.

(** X10. Input that is left when the top level of the grammar is
    exhausted is dropped: from a top-level index past the last node the
    engine returns on any tokenized input, with [Message.data] and the
    [Group] objects as they were, and it returns normally whenever the
    groups that are open have labels (as they have when none is open).
    The one other outcome is the [TypeError] of the listing of the open
    groups in [process_end], for an open group without label. *)
Theorem input_after_grammar_is_dropped (segments : list (list string)) idx i rep st :
  length G ≤ i →
  tokenized segments = true →
  ∃ st' out,
    (∀ k, process_segments uid G (length segments - idx + 2 + k) segments idx [i] rep st
          = Some (st', out))
    ∧ data st' = data st ∧ heap st' = heap st
    ∧ (labels_joinable st = true → out = inr tt)
    ∧ (last_containers st = [] → out = inr tt)
    ∧ (out = inr tt ∨ out = inl TypeError ∧ labels_joinable (close_container st) = false).
Proof.
  intros Hi Htok.
  remember (length segments - idx) as n eqn:Hn. revert idx Hn.
  induction n as [|n IH]; intros idx Hn.
  { exists st, (inr tt). split_and!; [|done..| by left].
    intros k. apply process_segments_halt. left. lia. }
  destruct (lookup_lt_is_Some_2 segments idx) as [seg Hseg]; [lia|].
  assert (seg ≠ []) as Hne.
  { intros ->. apply list_elem_of_lookup_2 in Hseg.
    by apply (forallb_elem_of _ _ _ Htok) in Hseg. }
  destruct seg as [|tag payload]; [done|].
  destruct (decide (tag ∈ segments_to_ignore)) as [Hign|Hign].
  - destruct (IH (idx + 1)) as (st' & out & Hrun & Hst'); [lia|].
    exists st', out. split; [|done]. intros k.
    change (S n + 2 + k) with (S (n + 2 + k)).
    by rewrite (process_segments_ignore uid G _ segments idx [i] rep st tag payload
                  Hseg Hign).
  - exists (close_container st),
      (if labels_joinable (close_container st) then inr tt else inl TypeError).
    split_and!.
    + intros k. change (S n + 2 + k) with (S (n + 2 + k)).
      rewrite (process_segments_step uid G _ segments idx [i] rep st tag payload None
                 Hseg Hign).
      * rewrite process_end_eq. destruct (labels_joinable (close_container st)); [|done].
        replace (n + 2 + k) with (S (n + 1 + k)) by lia.
        apply process_segments_halt. by right.
      * rewrite get_element_top. by rewrite lookup_ge_None_2.
    + unfold close_container. by case_bool_decide.
    + unfold close_container. by case_bool_decide.
    + intros Hjoin. by rewrite labels_joinable_close.
    + intros Hlc. rewrite labels_joinable_no_container; [done|].
      unfold close_container. by rewrite Hlc.
    + destruct (labels_joinable (close_container st)); [by left|by right].
Qed.

(** X11. [get_element] level by level.  The empty path is an
    [IndexError]; a first index past the top level gives [None] whatever
    follows it; otherwise one more index below a group selects its child,
    or [None] past the last child, and one more index below a segment or
    below [None] is an [AttributeError]. *)
Theorem get_element_by_levels (i0 : nat) (rest : list nat) (i : nat) :
  get_element G [] = inl IndexError
  ∧ get_element G [i0] = inr (G !! i0)
  ∧ (length G ≤ i0 → get_element G (i0 :: rest) = inr None)
  ∧ (i0 < length G →
     get_element G (i0 :: rest ++ [i])
     = match get_element G (i0 :: rest) with
       | inr (Some (SegmentGroup elements _ _ _ _)) => inr (elements !! i)
       | inr (Some (PlaceholderSegment _ _ _ _ _)) => inl AttributeError
       | inr None => inl AttributeError
       | inl x => inl x
       end).
Proof.
  split_and!.
  - done.
  - apply get_element_top.
  - intros Hi. simpl. by rewrite bool_decide_eq_true_2.
  - intros Hi. simpl. rewrite bool_decide_eq_false_2 by lia.
    rewrite get_element_loop_snoc.
    destruct (get_element_loop (G !! i0) rest) as [x|[[|cs m r l d]|]]; simpl; try done.
    by destruct (cs !! i).
Qed.

(** X12. The cursor and the open groups stay in step.  A step that goes
    on keeps three things: the path is one whose every index but the last
    selects a group, there is one open group per level below the top, and
    every open group is an allocated object. *)
Theorem step_keeps_cursor_invariants (segments : list (list string)) idx path rep st
    st' idx' path' rep' :
  valid_cursor G path →
  cursor_matches_containers path st →
  containers_allocated st →
  engine_step uid G segments idx path rep st = (st', Continue idx' path' rep') →
  valid_cursor G path' ∧ cursor_matches_containers path' st' ∧ containers_allocated st'.
Proof.
  intros Hv Hm Ha Hstep. split_and!.
  - by eapply engine_step_valid_cursor.
  - by eapply engine_step_cursor_matches.
  - by eapply engine_step_containers_allocated.
Qed.

(** X16. The first segment of a group gets one repeat less than it
    declares.  A group entered from repeat count [rep] hands [rep + 1] to
    its first child; when that child declares [N] repeats, with
    [rep + 1 < N], the entry and [N - (rep + 1)] further steps take as
    many segments of the child's tag (one entry each, in the new [Group])
    and leave the engine on the second child, so a further segment of
    that tag is not matched against the first child; the run returns,
    with the result of the run from there.  The new [Group] is then the
    open container and holds exactly those entries.  The group and the
    groups that are open are assumed to have labels. *)
Theorem first_child_gets_one_repeat_less (segments : list (list string)) idx path rep st
    ctag cm (N : nat) cl cd cs m r l d (payloads : list (list string)) :
  get_element G path
    = inr (Some (SegmentGroup (PlaceholderSegment ctag cm (Z.of_nat N) cl cd :: cs) m r l d)) →
  (Z.of_nat rep + 1 < r)%Z →
  rep + 1 + length payloads = N →
  1 ≤ length payloads →
  (∀ k p, payloads !! k = Some p → segments !! (idx + k) = Some (ctag :: p)) →
  ctag ∉ segments_to_ignore →
  is_Some l →
  labels_joinable st = true →
  containers_allocated st →
  let child := PlaceholderSegment ctag cm (Z.of_nat N) cl cd in
  let st1 := open_container uid (SegmentGroup (child :: cs) m r l d) st in
  let st' := foldl (λ s p, with_segment child (ctag :: p) s) st1 payloads in
  engine_step uid G segments idx path rep st = (st1, Continue idx (path ++ [0]) (rep + 1))
  ∧ engine_steps uid G segments (S (length payloads)) idx path rep st
    = (st', Continue (idx + length payloads) (path ++ [1]) 0)
  ∧ last_containers st' = last_containers st ++ [length (heap st)]
  ∧ current_entries (segment_key ctag cl) st'
    = (λ p, NSegment (DummySegment_init p (Some ctag) cl cd)) <$> payloads
  ∧ ∃ fuel res, ∀ k,
      process_segments uid G (S (length payloads) + (fuel + k)) segments idx path rep st
      = Some res
      ∧ process_segments uid G (fuel + k) segments (idx + length payloads) (path ++ [1]) 0 st'
        = Some res.
Proof.
  intros Hget Hr HN Hpos Hsegs Hign Hl Hjoin Halloc child st1 st'.
  destruct (lookup_lt_is_Some_2 payloads 0) as [p Hp0]; [lia|].
  pose proof (Hsegs 0 p Hp0) as Hseg. rewrite Nat.add_0_r in Hseg.
  pose proof (get_element_child G path 0 _ _ _ _ _ Hget) as Hchild. simpl in Hchild.
  assert (labels_joinable st1 = true) as Hjoin1.
  { unfold st1. rewrite labels_joinable_open by done. by apply bool_decide_eq_true. }
  assert (engine_step uid G segments idx path rep st
          = (st1, Continue idx (path ++ [0]) (rep + 1))) as Hfirst.
  { rewrite (engine_step_resolved uid G segments idx path rep st ctag p _ Hseg Hign Hget).
    rewrite (process_group_first_segment uid G segments idx path rep st ctag p
               ctag cm _ cl cd cs m r l d Hget Hseg Hr).
    rewrite bool_decide_eq_true_2 by done. fold child st1. by rewrite Hjoin1. }
  assert (engine_steps uid G segments (S (length payloads)) idx path rep st
          = (st', Continue (idx + length payloads) (path ++ [1]) 0)) as Hsteps.
  { cbn [engine_steps]. rewrite Hfirst.
    rewrite (engine_steps_segment uid G segments idx (path ++ [0]) (rep + 1) st1
               ctag cm N cl cd payloads (length payloads)) by (done || lia).
    rewrite bool_decide_eq_true_2 by done.
    rewrite take_ge, incr_last_snoc by lia. done. }
  assert (containers_allocated st1) as Halloc1 by (by apply containers_allocated_open).
  destruct (with_segments_spec ctag cm (Z.of_nat N) cl cd payloads st1 Halloc1)
    as (Hentries & Hlc & _).
  fold child st' in Hentries, Hlc.
  split_and!; [done..| | |].
  - rewrite Hlc. unfold st1. rewrite open_container_unfold. cbv zeta. simpl.
    by rewrite add_to_parent_containers.
  - rewrite Hentries. unfold st1. by rewrite current_entries_open.
  - destruct (process_segments_terminates_below uid G segments _ (idx + length payloads)
                (path ++ [1]) 0 st' (le_n _)) as (fuel & res & Hrun).
    exists fuel, res. intros k. split; [|done].
    by rewrite process_segments_steps, Hsteps.
Qed.

(** X17. A group without label cannot be entered.  When the input tag
    is the tag of its first child and repeats are left, [process_group]
    creates the [Group], files it in its parent and opens it, and then
    fails with [TypeError] in the listing of the open groups; the engine
    stops there and the new group stays in the results and in
    [last_containers]. *)
Theorem unlabelled_group_cannot_be_entered (segments : list (list string)) idx path rep st
    tag payload cm cr cl cd cs m r d :
  get_element G path
    = inr (Some (SegmentGroup (PlaceholderSegment tag cm cr cl cd :: cs) m r None d)) →
  segments !! idx = Some (tag :: payload) →
  (Z.of_nat rep + 1 < r)%Z →
  let st1 :=
    open_container uid (SegmentGroup (PlaceholderSegment tag cm cr cl cd :: cs) m r None d) st in
  process_group uid G segments idx path rep st = (st1, inl TypeError)
  ∧ ¬ enters_group uid G segments idx path rep st
  ∧ length (heap st1) = S (length (heap st))
  ∧ last_containers st1 = last_containers st ++ [length (heap st)]
  ∧ (last_containers st = [] →
     data st1 = dict_append (data st) None (NGroup (length (heap st))))
  ∧ (tag ∉ segments_to_ignore →
     ∀ fuel, process_segments uid G (S fuel) segments idx path rep st
             = Some (st1, inl TypeError)).
Proof.
  intros Hget Hseg Hr st1.
  assert (labels_joinable st1 = false) as Hjoin.
  { destruct (labels_joinable st1) eqn:Hj; [|done].
    apply labels_joinable_open_label in Hj. by destruct Hj. }
  assert (process_group uid G segments idx path rep st = (st1, inl TypeError)) as Hstep.
  { rewrite (process_group_first_segment uid G segments idx path rep st tag payload
               tag cm cr cl cd cs m r None d Hget Hseg Hr).
    rewrite bool_decide_eq_true_2 by done. fold st1. by rewrite Hjoin. }
  split_and!.
  - done.
  - intros (s' & rep' & Henter). congruence.
  - unfold st1. rewrite open_container_unfold. cbv zeta. cbn [heap].
    rewrite add_to_parent_eq. cbn [last_containers].
    destruct (last (last_containers st)); simpl;
      rewrite ?length_alter, length_app; simpl; lia.
  - unfold st1. rewrite open_container_unfold. cbv zeta. simpl.
    by rewrite add_to_parent_containers.
  - intros Hlc. unfold st1. rewrite open_container_unfold. cbv zeta. cbn [data].
    rewrite add_to_parent_eq. cbn [last_containers]. by rewrite Hlc.
  - intros Hign fuel.
    by rewrite (process_segments_step uid G fuel segments idx path rep st tag payload _
                  Hseg Hign Hget), Hstep.
Qed.

End Runs.

(** ** Instances of the further properties *)

Lemma initial_cursor_valid (G : list element) : valid_cursor G [0].
Proof. right. exists [], 0. split; [reflexivity|]. left. reflexivity. Defined.

Lemma initial_cursor_matches : cursor_matches_containers [0] initial_store.
Proof. right. reflexivity. Defined.

Lemma initial_store_nonempty : store_nonempty initial_store.
Proof.
  split.
  - intros k entries Hk. change (data initial_store) with (∅ : gmap (option string) (list node)) in Hk.
    rewrite lookup_empty in Hk. discriminate Hk.
  - intros ref g elements Hg. destruct ref; discriminate Hg.
Defined.

(** X2 on three envelope segments and the grammar of a mandatory X. *)
Lemma envelope_only_input_is_accepted_witness :
  forallb is_envelope [["UNA"]; ["UNH"; "1"]; ["UNT"; "2"]] = true
  ∧ ∀ k, process_segments constant_uid grammar_X (S (3 - 0) + k)
           [["UNA"]; ["UNH"; "1"]; ["UNT"; "2"]] 0 [0] 0 initial_store
         = Some (initial_store, inr tt).
Proof.
  split; [reflexivity|].
  exact (envelope_only_input_is_accepted constant_uid grammar_X
           [["UNA"]; ["UNH"; "1"]; ["UNT"; "2"]] 0 [0] 0 initial_store eq_refl).
Defined.

(** X4 on the group without label and the input tag B: the [Group] is
    created and filed, then the listing of the open groups fails. *)
Lemma raised_exceptions_witness :
  process_segments constant_uid grammar_nolabel 1 [["B"; "1"]] 0 [0] 0 initial_store
    = Some (mkStore {[ None := [NGroup 0] ]} [mkGroup false 2 None None 0 "aaaaa" None] [0] 1,
            inl TypeError)
  ∧ labels_joinable
      (mkStore {[ None := [NGroup 0] ]} [mkGroup false 2 None None 0 "aaaaa" None] [0] 1)
    = false.
Proof.
  assert (process_segments constant_uid grammar_nolabel 1 [["B"; "1"]] 0 [0] 0 initial_store
          = Some (mkStore {[ None := [NGroup 0] ]}
                    [mkGroup false 2 None None 0 "aaaaa" None] [0] 1,
                  inl TypeError)) as Hrun by (vm_compute; reflexivity).
  exact (conj Hrun (raised_exceptions constant_uid grammar_nolabel _ _ _ _ _ _ _ _ Hrun)).
Defined.

(** X5 on the grammar of a mandatory X and the input tag Y. *)
Lemma well_formed_run_raises_only_missing_segment_witness :
  well_formed_grammar grammar_X = true
  ∧ labelled_grammar grammar_X = true
  ∧ tokenized [["Y"; "1"]] = true
  ∧ valid_cursor grammar_X [0]
  ∧ labels_joinable initial_store = true
  ∧ process_segments constant_uid grammar_X 1 [["Y"; "1"]] 0 [0] 0 initial_store
    = Some (initial_store, inl (MissingSegmentAtPositionError "X"))
  ∧ ∃ t, MissingSegmentAtPositionError "X" = MissingSegmentAtPositionError t
         ∧ t ∈ grammar_mandatory_tags grammar_X.
Proof.
  assert (process_segments constant_uid grammar_X 1 [["Y"; "1"]] 0 [0] 0 initial_store
          = Some (initial_store, inl (MissingSegmentAtPositionError "X"))) as Hrun
    by reflexivity.
  split_and!; [reflexivity | reflexivity | reflexivity | exact (initial_cursor_valid grammar_X)
               | reflexivity | exact Hrun |].
  exact (well_formed_run_raises_only_missing_segment constant_uid grammar_X [["Y"; "1"]] 1
           0 [0] 0 initial_store initial_store (MissingSegmentAtPositionError "X")
           eq_refl eq_refl eq_refl (initial_cursor_valid grammar_X) eq_refl Hrun).
Defined.

(** X6 on a grammar of optional nodes and a segment none of them takes. *)
Lemma optional_grammar_never_raises_witness :
  well_formed_grammar grammar_optional = true
  ∧ labelled_grammar grammar_optional = true
  ∧ grammar_mandatory_tags grammar_optional = []
  ∧ tokenized [["Z"; "1"]] = true
  ∧ valid_cursor grammar_optional [0]
  ∧ labels_joinable initial_store = true
  ∧ (∃ fuel st', ∀ k,
       process_segments constant_uid grammar_optional (fuel + k) [["Z"; "1"]] 0 [0] 0
         initial_store = Some (st', inr tt))
  ∧ process_segments constant_uid grammar_optional 5 [["Z"; "1"]] 0 [0] 0 initial_store
    = Some (initial_store, inr tt).
Proof.
  destruct (optional_grammar_never_raises constant_uid grammar_optional [["Z"; "1"]]
              0 [0] 0 initial_store
              eq_refl eq_refl eq_refl eq_refl (initial_cursor_valid grammar_optional) eq_refl)
    as [Hret _].
  split_and!; [reflexivity | reflexivity | reflexivity | reflexivity
               | exact (initial_cursor_valid grammar_optional) | reflexivity
               | exact Hret | reflexivity].
Defined.

(** X7 on a second segment A added to a store that holds one. *)
Lemma results_only_grow_witness :
  process_segments constant_uid [PlaceholderSegment "A" true 2 None None] 2 [["A"; "2"]]
    0 [0] 0 (mkStore {[ Some "A" := [plain_segment "A" ["1"]] ]} [] [] 0)
    = Some (mkStore {[ Some "A" := [plain_segment "A" ["1"]; plain_segment "A" ["2"]] ]}
              [] [] 0, inr tt)
  ∧ store_extends (mkStore {[ Some "A" := [plain_segment "A" ["1"]] ]} [] [] 0)
      (mkStore {[ Some "A" := [plain_segment "A" ["1"]; plain_segment "A" ["2"]] ]} [] [] 0).
Proof.
  assert (process_segments constant_uid [PlaceholderSegment "A" true 2 None None] 2
            [["A"; "2"]] 0 [0] 0 (mkStore {[ Some "A" := [plain_segment "A" ["1"]] ]} [] [] 0)
          = Some (mkStore {[ Some "A" := [plain_segment "A" ["1"]; plain_segment "A" ["2"]] ]}
                    [] [] 0, inr tt)) as Hrun by (vm_compute; reflexivity).
  exact (conj Hrun (results_only_grow constant_uid _ _ _ _ _ _ _ _ _ Hrun)).
Defined.

(** X8 on the parse of a segment A from the fresh store. *)
Lemma no_empty_result_list_witness :
  store_nonempty initial_store
  ∧ process_segments constant_uid [seg_A] 2 [["A"; "1"]] 0 [0] 0 initial_store
    = Some (mkStore {[ Some "A" := [plain_segment "A" ["1"]] ]} [] [] 0, inr tt)
  ∧ store_nonempty (mkStore {[ Some "A" := [plain_segment "A" ["1"]] ]} [] [] 0).
Proof.
  assert (process_segments constant_uid [seg_A] 2 [["A"; "1"]] 0 [0] 0 initial_store
          = Some (mkStore {[ Some "A" := [plain_segment "A" ["1"]] ]} [] [] 0, inr tt))
    as Hrun by (vm_compute; reflexivity).
  exact (conj initial_store_nonempty
           (conj Hrun
              (proj1 (no_empty_result_list constant_uid _ _ _ _ _ _ _ _ _
                        initial_store_nonempty Hrun)))).
Defined.

(** X9 on the tags A, B, B: the nested label B is no key of the result. *)
Lemma data_keys_are_top_level_keys_witness :
  cursor_matches_containers [0] initial_store
  ∧ (Some "B" ∉ dom (data initial_store) ∪ top_keys grammar_A_G1)
  ∧ process_segments constant_uid grammar_A_G1 7 [["A"]; ["B"]; ["B"]] 0 [0] 0 initial_store
    = Some (mkStore {[ Some "A" := [plain_segment "A" []];
                       Some "G1" := [NGroup 0; NGroup 1] ]}
              [group_G1_with_B false "aaaaa" []; group_G1_with_B false "aaaaa" []] [1] 2,
            inr tt)
  ∧ Message_getitem
      (mkStore {[ Some "A" := [plain_segment "A" []]; Some "G1" := [NGroup 0; NGroup 1] ]}
         [group_G1_with_B false "aaaaa" []; group_G1_with_B false "aaaaa" []] [1] 2)
      (Some "B")
    = inl (KeyError (Some "B")).
Proof.
  assert (Some "B" ∉ dom (data initial_store) ∪ top_keys grammar_A_G1) as Hkey.
  { apply (bool_decide_unpack _). vm_compute. exact I. }
  assert (process_segments constant_uid grammar_A_G1 7 [["A"]; ["B"]; ["B"]] 0 [0] 0
            initial_store
          = Some (mkStore {[ Some "A" := [plain_segment "A" []];
                             Some "G1" := [NGroup 0; NGroup 1] ]}
                    [group_G1_with_B false "aaaaa" []; group_G1_with_B false "aaaaa" []] [1] 2,
                  inr tt)) as Hrun by (vm_compute; reflexivity).
  exact (conj initial_cursor_matches
           (conj Hkey
              (conj Hrun
                 (data_keys_are_top_level_keys constant_uid grammar_A_G1 _ _ _ _ _ _ _ _ _
                    initial_cursor_matches Hkey Hrun)))).
Defined.

(** X10 on two segments presented after the single node of the grammar. *)
Lemma input_after_grammar_is_dropped_witness :
  length grammar_X ≤ 1
  ∧ tokenized [["Y"; "1"]; ["Z"; "2"]] = true
  ∧ ∃ st' out,
      (∀ k, process_segments constant_uid grammar_X (2 - 0 + 2 + k)
              [["Y"; "1"]; ["Z"; "2"]] 0 [1] 0 initial_store
            = Some (st', out))
      ∧ data st' = data initial_store ∧ heap st' = heap initial_store
      ∧ out = inr tt.
Proof.
  split_and!; [exact (le_n 1) | reflexivity |].
  destruct (input_after_grammar_is_dropped constant_uid grammar_X [["Y"; "1"]; ["Z"; "2"]]
              0 1 0 initial_store (le_n 1) eq_refl)
    as (st' & out & Hrun & Hdata & Hheap & Hjoin & _).
  exists st', out.
  exact (conj Hrun (conj Hdata (conj Hheap (Hjoin eq_refl)))).
Defined.

(** X11 on the grammar of C1: past the top level, and below the group. *)
Lemma get_element_by_levels_witness :
  length grammar_A_G1 ≤ 5
  ∧ get_element grammar_A_G1 [5; 0; 0] = inr None
  ∧ 1 < length grammar_A_G1
  ∧ get_element grammar_A_G1 [1; 0] = inr (Some seg_B)
  ∧ get_element grammar_A_G1 [1; 7] = inr None
  ∧ get_element grammar_A_G1 [1; 0; 0] = inl AttributeError.
Proof.
  assert (length grammar_A_G1 ≤ 5) as H5 by (simpl; lia).
  assert (1 < length grammar_A_G1) as H1 by (simpl; lia).
  destruct (get_element_by_levels grammar_A_G1 5 [0; 0] 0) as (_ & _ & Hout & _).
  destruct (get_element_by_levels grammar_A_G1 1 [] 0) as (_ & _ & _ & Hin0).
  destruct (get_element_by_levels grammar_A_G1 1 [] 7) as (_ & _ & _ & Hin7).
  destruct (get_element_by_levels grammar_A_G1 1 [0] 0) as (_ & _ & _ & Hbelow).
  exact (conj H5 (conj (Hout H5) (conj H1 (conj (Hin0 H1) (conj (Hin7 H1) (Hbelow H1)))))).
Defined.

(** X12 on the step that enters ["G1"]. *)
Lemma step_keeps_cursor_invariants_witness :
  valid_cursor (grammar_G1 false) [0]
  ∧ cursor_matches_containers [0] initial_store
  ∧ containers_allocated initial_store
  ∧ engine_step constant_uid (grammar_G1 false) [["B"; "1"]] 0 [0] 0 initial_store
    = (mkStore {[ Some "G1" := [NGroup 0] ]} [mkGroup false 2 (Some "G1") None 0 "aaaaa" None]
         [0] 1,
       Continue 0 [0; 0] 1)
  ∧ valid_cursor (grammar_G1 false) [0; 0]
  ∧ cursor_matches_containers [0; 0]
      (mkStore {[ Some "G1" := [NGroup 0] ]} [mkGroup false 2 (Some "G1") None 0 "aaaaa" None]
         [0] 1)
  ∧ containers_allocated
      (mkStore {[ Some "G1" := [NGroup 0] ]} [mkGroup false 2 (Some "G1") None 0 "aaaaa" None]
         [0] 1).
Proof.
  assert (engine_step constant_uid (grammar_G1 false) [["B"; "1"]] 0 [0] 0 initial_store
          = (mkStore {[ Some "G1" := [NGroup 0] ]}
               [mkGroup false 2 (Some "G1") None 0 "aaaaa" None] [0] 1,
             Continue 0 [0; 0] 1)) as Hstep by reflexivity.
  exact (conj (initial_cursor_valid _)
           (conj initial_cursor_matches
              (conj initial_containers_allocated
                 (conj Hstep
                    (step_keeps_cursor_invariants constant_uid (grammar_G1 false) _ _ _ _ _
                       _ _ _ _ (initial_cursor_valid _) initial_cursor_matches
                       initial_containers_allocated Hstep))))).
Defined.

(** X16 on a group whose first child declares three repeats: two
    segments B are taken, the third is set against the second child. *)
Lemma first_child_gets_one_repeat_less_witness :
  get_element grammar_G1_B3 [0]
    = inr (Some (SegmentGroup [PlaceholderSegment "B" true (Z.of_nat 3) None None; seg_A]
                   false 2 (Some "G1") None))
  ∧ (Z.of_nat 0 + 1 < 2)%Z
  ∧ 0 + 1 + length [["1"]; ["2"]] = 3
  ∧ 1 ≤ length [["1"]; ["2"]]
  ∧ (∀ k p, [["1"]; ["2"]] !! k = Some p
            → [["B"; "1"]; ["B"; "2"]; ["B"; "3"]] !! (0 + k) = Some ("B" :: p))
  ∧ ("B" ∉ segments_to_ignore)
  ∧ is_Some (Some "G1")
  ∧ labels_joinable initial_store = true
  ∧ containers_allocated initial_store
  ∧ engine_steps constant_uid grammar_G1_B3 [["B"; "1"]; ["B"; "2"]; ["B"; "3"]] 3 0 [0] 0
      initial_store
    = (mkStore {[ Some "G1" := [NGroup 0] ]}
         [mkGroup false 2 (Some "G1") None 0 "aaaaa"
            (Some {[ Some "B" := [plain_segment "B" ["1"]; plain_segment "B" ["2"]] ]})]
         [0] 1,
       Continue 2 [0; 1] 0).
Proof.
  assert (Z.of_nat 0 + 1 < 2)%Z as Hr by reflexivity.
  assert (is_Some (Some "G1")) as Hl by (exists "G1"; reflexivity).
  assert (∀ k p, [["1"]; ["2"]] !! k = Some p
                 → [["B"; "1"]; ["B"; "2"]; ["B"; "3"]] !! (0 + k) = Some ("B" :: p)) as Hsegs.
  { intros [|[|k]] p Hp; inversion Hp; reflexivity. }
  destruct (first_child_gets_one_repeat_less constant_uid grammar_G1_B3
              [["B"; "1"]; ["B"; "2"]; ["B"; "3"]] 0 [0] 0 initial_store
              "B" true 3 None None [seg_A] false 2%Z (Some "G1") None [["1"]; ["2"]]
              eq_refl Hr eq_refl (le_S 1 1 (le_n 1)) Hsegs (not_ignored "B" eq_refl)
              Hl eq_refl initial_containers_allocated) as (_ & Hsteps & _).
  split_and!; [reflexivity | exact Hr | reflexivity | exact (le_S 1 1 (le_n 1)) | exact Hsegs
               | exact (not_ignored "B" eq_refl) | exact Hl | reflexivity
               | exact initial_containers_allocated | exact Hsteps].
Defined.

(** X17 on the group without label and the input tag B. *)
Lemma unlabelled_group_cannot_be_entered_witness :
  get_element grammar_nolabel [0]
    = inr (Some (SegmentGroup [PlaceholderSegment "B" false 1 None None] false 2 None None))
  ∧ [["B"; "1"]] !! 0 = Some ["B"; "1"]
  ∧ (Z.of_nat 0 + 1 < 2)%Z
  ∧ process_group constant_uid grammar_nolabel [["B"; "1"]] 0 [0] 0 initial_store
    = (mkStore {[ None := [NGroup 0] ]} [mkGroup false 2 None None 0 "aaaaa" None] [0] 1,
       inl TypeError)
  ∧ ∀ fuel, process_segments constant_uid grammar_nolabel (S fuel) [["B"; "1"]] 0 [0] 0
              initial_store
            = Some (mkStore {[ None := [NGroup 0] ]}
                      [mkGroup false 2 None None 0 "aaaaa" None] [0] 1,
                    inl TypeError).
Proof.
  assert (Z.of_nat 0 + 1 < 2)%Z as Hr by reflexivity.
  destruct (unlabelled_group_cannot_be_entered constant_uid grammar_nolabel [["B"; "1"]]
              0 [0] 0 initial_store "B" ["1"] false 1%Z None None [] false 2%Z None
              eq_refl eq_refl Hr) as (Hstep & _ & _ & _ & _ & Hrun).
  split_and!; [reflexivity | reflexivity | exact Hr | exact Hstep |].
  exact (Hrun (not_ignored "B" eq_refl)).
Defined.

(** * The structure loader *)

Section Loader.

Variable int : string → option Z.

Lemma xml_forall_ind (P : Structure.xml → Prop) :
  (∀ tag attrib children, Forall P children → P (Structure.Element tag attrib children)) →
  ∀ x, P x.
Proof.
  intros Hstep. fix IH 1. intros [tag attrib children]. apply Hstep.
  induction children as [|c children IHc]; constructor; [apply IH|apply IHc].
Qed.

(** [process_element] on a [GROUP] is [process_group], on any other
    element the constructor of a segment. *)
Lemma process_element_eq tag attrib children :
  Structure.process_element int (Structure.Element tag attrib children)
  = if bool_decide (tag = "GROUP")
    then Structure.process_group int (Structure.Element tag attrib children)
    else Structure.PlaceholderSegment_init int tag attrib.
Proof.
  simpl. case_bool_decide; [|done].
  assert (∀ l, (fix each (l : list Structure.xml) : Structure.init_error + list element :=
                  match l with
                  | [] => inr []
                  | child :: l' =>
                      match Structure.process_element int child with
                      | inl e => inl e
                      | inr c => match each l' with
                                 | inl e => inl e
                                 | inr cs => inr (c :: cs)
                                 end
                      end
                  end) l = Structure.process_elements int l) as ->; [|done].
  induction l as [|c l IH]; [done|]. simpl. by rewrite IH.
Qed.

Lemma process_elements_Forall2 l els :
  Structure.process_elements int l = inr els →
  Forall2 (λ x e, Structure.process_element int x = inr e) l els.
Proof.
  revert els. induction l as [|x l IH]; intros els; simpl.
  - intros [= <-]. constructor.
  - destruct (Structure.process_element int x) as [err|e] eqn:Hx; [done|].
    destruct (Structure.process_elements int l) as [err|es]; [done|].
    intros [= <-]. constructor; [done|by apply IH].
Qed.

Lemma process_element_skeleton x :
  ∀ e, Structure.process_element int x = inr e →
       Structure.element_skeleton e = Structure.xml_skeleton x.
Proof.
  induction x as [tag attrib children IH] using xml_forall_ind. intros e.
  rewrite process_element_eq. simpl. case_bool_decide as Htag.
  - destruct (Structure.process_elements int children) as [err|els] eqn:Hels; [done|].
    unfold Structure.SegmentGroup_init. case_bool_decide; [|done].
    destruct (int _); [|done]. intros [= <-]. simpl. f_equal.
    apply process_elements_Forall2 in Hels. clear -IH Hels.
    induction Hels as [|x e l els Hx Hl IHl]; [done|].
    apply Forall_cons in IH as [IHx IH]. simpl. f_equal; [by apply IHx|by apply IHl].
  - unfold Structure.PlaceholderSegment_init. case_bool_decide; [|done].
    destruct (int _); [|done]. by intros [= <-].
Qed.

Lemma process_element_acceptable x :
  (∃ e, Structure.process_element int x = inr e) ↔ Structure.acceptable int x = true.
Proof.
  induction x as [tag attrib children IH] using xml_forall_ind.
  rewrite process_element_eq. simpl.
  assert ((∃ els, Structure.process_elements int children = inr els)
          ↔ forallb (Structure.acceptable int) children = true) as Hchildren.
  { clear -IH. induction children as [|x l IHl]; simpl.
    - split; [done|]. intros _. by eexists.
    - apply Forall_cons in IH as [[Hx1 Hx2] IH]. specialize (IHl IH) as [Hl1 Hl2]. split.
      + intros [els Hels].
        destruct (Structure.process_element int x) as [err|e] eqn:Hx; [done|].
        destruct (Structure.process_elements int l) as [err|es] eqn:Hl; [done|].
        rewrite Hx1, Hl1 by eauto. done.
      + intros [Hx Hl]%andb_prop.
        destruct (Hx2 Hx) as [e ->]. destruct (Hl2 Hl) as [es ->]. by eexists. }
  unfold Structure.SegmentGroup_init, Structure.PlaceholderSegment_init.
  case_bool_decide as Htag; case_bool_decide as Hdom; simpl.
  - destruct (int (default "1" (attrib !! "repeats"))) as [n|] eqn:Hint; simpl.
    + rewrite <- Hchildren. split.
      * intros [e He]. destruct (Structure.process_elements int children); [done|]. eauto.
      * intros [els ->]. eauto.
    + split; [|done].
      intros [e He]. by destruct (Structure.process_elements int children).
  - split; [|done]. intros [e He].
    by destruct (Structure.process_elements int children).
  - destruct (int (default "1" (attrib !! "repeats"))) as [n|] eqn:Hint; simpl.
    + split; [done|]. eauto.
    + split; [|done]. by intros [e He].
  - split; [|done]. by intros [e He].
Qed.

(** X13. The loader keeps the tree of the specification: a [GROUP]
    element becomes a group with one node per child, in document order,
    any other element becomes a segment with the element's tag (its own
    children are dropped).  Since only [GROUP] makes a group, no loaded
    segment has the tag [GROUP]. *)
Theorem loader_keeps_structure (root : Structure.xml) (elements : list element) :
  Structure.generate_structure int root = inr elements →
  map Structure.element_skeleton elements
  = map Structure.xml_skeleton (Structure.xml_children root)
  ∧ ∀ path tag m r l d,
      get_element elements path = inr (Some (PlaceholderSegment tag m r l d)) →
      tag ≠ "GROUP".
Proof.
  unfold Structure.generate_structure. intros Hload.
  apply process_elements_Forall2 in Hload.
  assert (Forall2 (λ x e, Structure.element_skeleton e = Structure.xml_skeleton x)
            (Structure.xml_children root) elements) as Hskel.
  { eapply Forall2_impl; [done|]. intros x e. apply process_element_skeleton. }
  split.
  - clear Hload. induction Hskel as [|x e l els Hx Hl IH]; [done|]. simpl. by f_equal.
  - intros path tag m r l d Hget.
    apply (get_element_closed elements
             (λ e, ∃ x, Structure.element_skeleton e = Structure.xml_skeleton x)) in Hget.
    + destruct Hget as [[xtag xattrib xchildren] Hx]. simpl in Hx.
      case_bool_decide; [done|]. by injection Hx as ->.
    + intros e0 [i Hi]%list_elem_of_lookup.
      destruct (Forall2_lookup_r _ _ _ _ _ Hskel Hi) as (x & _ & Hx). eauto.
    + intros cs m' r' l' d' i c [[xtag xattrib xchildren] Hx] Hc. simpl in Hx.
      case_bool_decide; [|done]. injection Hx as Hx.
      assert (map Structure.element_skeleton cs !! i = Some (Structure.element_skeleton c))
        as Hi by (by rewrite list_lookup_fmap, Hc).
      rewrite Hx, list_lookup_fmap in Hi.
      destruct (xchildren !! i) as [x|]; [|done]. injection Hi as Hi. eauto.
Qed.

(** X14. The loader succeeds exactly on acceptable specifications: every
    element that is reached through [GROUP] elements has no attribute but
    [status], [repeats], [label] and [description] and a [repeats] that
    [int] reads.  The root's own tag and attributes do not matter. *)
Theorem loader_accepts_iff_acceptable (root : Structure.xml) :
  (∃ elements, Structure.generate_structure int root = inr elements)
  ↔ forallb (Structure.acceptable int) (Structure.xml_children root) = true.
Proof.
  unfold Structure.generate_structure.
  induction (Structure.xml_children root) as [|x l [IH1 IH2]]; simpl.
  - split; [done|]. intros _. by eexists.
  - destruct (process_element_acceptable x) as [Hx1 Hx2]. split.
    + intros [els Hels].
      destruct (Structure.process_element int x) as [err|e] eqn:Hx; [done|].
      destruct (Structure.process_elements int l) as [err|es] eqn:Hl; [done|].
      rewrite Hx1, IH1 by eauto. done.
    + intros [Hx Hl]%andb_prop.
      destruct (Hx2 Hx) as [e ->]. destruct (IH2 Hl) as [es ->]. by eexists.
Qed.

End Loader.

(** X13 on the specification of the grammar of C1. *)
Lemma loader_keeps_structure_witness :
  Structure.generate_structure Structure.decimal_literal Structure.xml_A_G1 = inr grammar_A_G1
  ∧ map Structure.element_skeleton grammar_A_G1
    = [Structure.Leaf "A"; Structure.Node [Structure.Leaf "B"]].
Proof.
  assert (Structure.generate_structure Structure.decimal_literal Structure.xml_A_G1
          = inr grammar_A_G1) as Hload by (vm_compute; reflexivity).
  exact (conj Hload
           (proj1 (loader_keeps_structure Structure.decimal_literal Structure.xml_A_G1
                     grammar_A_G1 Hload))).
Defined.
